(** * The Mongo peer-group reconciler of juju (worker/peergrouper/desired.go)

    A shallow embedding of [newPeerGroupInfo] and [desiredPeerGroup] with the
    helpers they call, followed by the properties of the reconciler.

    Conventions of the embedding:
    - Go maps are stdpp [gmap]s; a map of pointers whose entries are tested
      with [!= nil] is a map whose absent keys play the role of nil.
    - Go slices are lists; [append] is [++].
    - Go [int] is the 64-bit two's-complement integer: values are in [Z] and
      the one arithmetic operation that can leave the range ([*maxId++]) is
      wrapped with [wrap64].
    - a function that can dereference a nil pointer returns [option], where
      [None] stands for the run-time panic.
    - Go's [(value, error)] results are kept as tuples with an
      [option error]. *)

From Stdlib Require Import ZArith Lia.
From stdpp Require Import base option list sorting fin_maps gmap strings.

(** ** Types of the collaborating packages *)

(** Modelled from the spec: the [replicaset.MemberState] enumeration of the
    juju/replicaset package, which is not part of the sources at hand.  The
    zero value of the Go type is the start-up state. *)
Inductive MemberState :=
  | StartupState
  | PrimaryState
  | SecondaryState
  | RecoveringState
  | FatalState
  | Startup2State
  | UnknownState
  | ArbiterState
  | DownState
  | RollbackState
  | ShunnedState.

#[global] Instance MemberState_eq_dec : EqDecision MemberState.
Proof. solve_decision. Defined.

(** Modelled from the spec: [replicaset.Member], restricted to the fields the
    reconciler reads or writes.  [Votes] is [*int]; [Priority] is [*float64],
    kept as the bit pattern of the float (0.0 is 0). *)
Record Member := mkMember {
  Id : Z;
  Address : string;
  Tags : gmap string string;
  Votes : option Z;
  Priority : option Z;
}.

(** Modelled from the spec: [replicaset.MemberStatus], restricted to the
    fields the reconciler reads. *)
Record MemberStatus := mkStatus {
  sts_Id : Z;
  Healthy : bool;
  State : MemberState;
}.

(** The zero value Go returns when a status is looked up under an absent key. *)
Definition zeroStatus : MemberStatus :=
  {| sts_Id := 0; Healthy := false; State := StartupState |}.

Inductive error :=
  | ErrEmptyMemberSet
  | ErrExtraVotingMember (m : Member)
  | ErrNoUsableAddress (msg : string).

(** Modelled from the spec: the [machineTracker] of the peergrouper worker,
    of which the reconciler only calls [WantsVote] and [SelectMongoAddress].
    The error of the address selection is kept as its message. *)
Record machineTracker := mkTracker {
  WantsVote : bool;
  SelectMongoAddress : Z → string → string * option string;
}.

(** ** Data of the reconciler *)

Definition jujuMachineKey : string := "juju-machine-id".

Record peerGroupInfo := mkInfo {
  machines : gmap string machineTracker;
  recognised : gmap string Member;
  statuses : gmap string MemberStatus;
  extra : list Member;
  maxMemberId : Z;
  mongoPort : Z;
  haSpace : string;
}.

Record peerGroupChanges := mkChanges {
  isChanged : bool;
  toRemoveVote : list string;
  toAddVote : list string;
  toKeepVoting : list string;
  toKeepNonVoting : list string;
  toKeepCreateNonVotingMember : list string;
  machineVoting : gmap string bool;
  addrs : gmap string string;
  members : gmap string Member;
}.

(** Field updates. *)
Definition set_recognised (i : peerGroupInfo) v :=
  mkInfo (machines i) v (statuses i) (extra i) (maxMemberId i) (mongoPort i) (haSpace i).
Definition set_statuses (i : peerGroupInfo) v :=
  mkInfo (machines i) (recognised i) v (extra i) (maxMemberId i) (mongoPort i) (haSpace i).
Definition set_extra (i : peerGroupInfo) v :=
  mkInfo (machines i) (recognised i) (statuses i) v (maxMemberId i) (mongoPort i) (haSpace i).
Definition set_maxMemberId (i : peerGroupInfo) v :=
  mkInfo (machines i) (recognised i) (statuses i) (extra i) v (mongoPort i) (haSpace i).

Definition set_isChanged (p : peerGroupChanges) v :=
  mkChanges v (toRemoveVote p) (toAddVote p) (toKeepVoting p) (toKeepNonVoting p)
    (toKeepCreateNonVotingMember p) (machineVoting p) (addrs p) (members p).
Definition set_toRemoveVote (p : peerGroupChanges) v :=
  mkChanges (isChanged p) v (toAddVote p) (toKeepVoting p) (toKeepNonVoting p)
    (toKeepCreateNonVotingMember p) (machineVoting p) (addrs p) (members p).
Definition set_toAddVote (p : peerGroupChanges) v :=
  mkChanges (isChanged p) (toRemoveVote p) v (toKeepVoting p) (toKeepNonVoting p)
    (toKeepCreateNonVotingMember p) (machineVoting p) (addrs p) (members p).
Definition set_toKeepVoting (p : peerGroupChanges) v :=
  mkChanges (isChanged p) (toRemoveVote p) (toAddVote p) v (toKeepNonVoting p)
    (toKeepCreateNonVotingMember p) (machineVoting p) (addrs p) (members p).
Definition set_toKeepNonVoting (p : peerGroupChanges) v :=
  mkChanges (isChanged p) (toRemoveVote p) (toAddVote p) (toKeepVoting p) v
    (toKeepCreateNonVotingMember p) (machineVoting p) (addrs p) (members p).
Definition set_toKeepCreateNonVotingMember (p : peerGroupChanges) v :=
  mkChanges (isChanged p) (toRemoveVote p) (toAddVote p) (toKeepVoting p) (toKeepNonVoting p)
    v (machineVoting p) (addrs p) (members p).
Definition set_machineVoting (p : peerGroupChanges) v :=
  mkChanges (isChanged p) (toRemoveVote p) (toAddVote p) (toKeepVoting p) (toKeepNonVoting p)
    (toKeepCreateNonVotingMember p) v (addrs p) (members p).
Definition set_addrs (p : peerGroupChanges) v :=
  mkChanges (isChanged p) (toRemoveVote p) (toAddVote p) (toKeepVoting p) (toKeepNonVoting p)
    (toKeepCreateNonVotingMember p) (machineVoting p) v (members p).
Definition set_members (p : peerGroupChanges) v :=
  mkChanges (isChanged p) (toRemoveVote p) (toAddVote p) (toKeepVoting p) (toKeepNonVoting p)
    (toKeepCreateNonVotingMember p) (machineVoting p) (addrs p) v.

(** ** Machine integers and the order of [sort.Strings] *)

Definition maxInt64 : Z := 2 ^ 63 - 1.
Definition minInt64 : Z := - 2 ^ 63.

(** Two's-complement wrap-around of a 64-bit signed integer. *)
Definition wrap64 (z : Z) : Z := ((z + 2 ^ 63) mod 2 ^ 64 - 2 ^ 63)%Z.

(** [sort.Strings] orders strings byte-wise, which is [String.leb]. *)
Definition string_le (a b : string) : Prop := Is_true (String.leb a b).

#[global] Instance string_le_dec : RelDecision string_le.
Proof. intros a b. unfold string_le. apply _. Defined.

Definition sortStrings (l : list string) : list string := merge_sort string_le l.

(** ** newPeerGroupInfo *)

(** The inner loop over the statuses: the last status whose id is the
    member's id ends up recorded under the machine id. *)
Definition linkStatuses (sts : list MemberStatus) (m : Member) (id : string)
    (acc : gmap string MemberStatus) : gmap string MemberStatus :=
  foldl (λ acc s, if decide (sts_Id s = Id m) then <[id := s]> acc else acc) acc sts.

(** One iteration of the loop over the input members. *)
Definition assembleMember (ms : gmap string machineTracker) (sts : list MemberStatus)
    (info : peerGroupInfo) (m : Member) : peerGroupInfo :=
  let '(found, info) :=
    match Tags m !! jujuMachineKey with
    | Some id =>
        let '(found, info) :=
          match ms !! id with
          | Some _ => (true, set_recognised info (<[id := m]> (recognised info)))
          | None => (false, info)
          end in
        (found, set_statuses info (linkStatuses sts m id (statuses info)))
    | None => (false, info)
    end in
  let info := if found then info else set_extra info (extra info ++ [m]) in
  if (Id m >? maxMemberId info)%Z then set_maxMemberId info (Id m) else info.

Definition newPeerGroupInfo (ms : gmap string machineTracker) (sts : list MemberStatus)
    (mems : list Member) (port : Z) (space : string) : option peerGroupInfo * option error :=
  if decide (length mems = 0) then (None, Some ErrEmptyMemberSet)
  else
    let info := {| machines := ms; statuses := ∅; recognised := ∅; extra := [];
                   maxMemberId := -1; mongoPort := port; haSpace := space |} in
    (Some (foldl (assembleMember ms sts) info mems), None).

(** ** Helpers of desiredPeerGroup *)

Definition isVotingMember (m : Member) : bool :=
  match Votes m with
  | None => true
  | Some v => (v >? 0)%Z
  end.

Definition isPrimaryMember (info : peerGroupInfo) (id : string) : bool :=
  bool_decide (State (default zeroStatus (statuses info !! id)) = PrimaryState).

Definition isReady (status : MemberStatus) : bool :=
  Healthy status &&
  (bool_decide (State status = PrimaryState) || bool_decide (State status = SecondaryState)).

Definition initNewReplicaSet (info : peerGroupInfo) : gmap string Member :=
  recognised info.

Fixpoint checkExtraMembers_loop (ex : list Member) : option error :=
  match ex with
  | [] => None
  | member :: rest =>
      if isVotingMember member then Some (ErrExtraVotingMember member)
      else checkExtraMembers_loop rest
  end.

Definition checkExtraMembers (p : peerGroupChanges) (ex : list Member)
    : peerGroupChanges * option error :=
  match checkExtraMembers_loop ex with
  | Some err => (p, Some err)
  | None =>
      (if decide (0 < length ex) then set_isChanged p true else p, None)
  end.

(** The loop ranges over a Go map, in an unspecified order: which failing
    machine is reported depends on it, whether the call fails does not. *)
Definition getMongoAddresses (p : peerGroupChanges) (info : peerGroupInfo)
    : peerGroupChanges * option error :=
  map_fold (λ id m (acc : peerGroupChanges * option error),
      match acc.2 with
      | Some _ => acc
      | None =>
          let '(a, err) := SelectMongoAddress m (mongoPort info) (haSpace info) in
          (set_addrs acc.1 (<[id := a]> (addrs acc.1)), ErrNoUsableAddress <$> err)
      end)
    (set_addrs p ∅, None) (machines info).

Definition getMachinesVoting (p : peerGroupChanges) : peerGroupChanges :=
  set_machineVoting p
    (map_fold (λ id m mv, <[id := isVotingMember m]> mv) (machineVoting p) (members p)).

(** One iteration of the classification loop.  [id] ranges over the keys of
    [info.machines], so the tracker is always found. *)
Definition classifyMachine (info : peerGroupInfo) (p : peerGroupChanges) (id : string)
    : peerGroupChanges :=
  match machines info !! id with
  | None => p
  | Some m =>
      let member := members p !! id in
      let isVoting := match member with Some mem => isVotingMember mem | None => false end in
      let wantsVote := WantsVote m in
      if wantsVote && isVoting then set_toKeepVoting p (toKeepVoting p ++ [id])
      else if wantsVote && negb isVoting then
        if match statuses info !! id with Some status => isReady status | None => false end
        then set_toAddVote p (toAddVote p ++ [id])
        else if bool_decide (is_Some member)
        then set_toKeepNonVoting p (toKeepNonVoting p ++ [id])
        else set_toKeepCreateNonVotingMember p (toKeepCreateNonVotingMember p ++ [id])
      else if negb wantsVote && isVoting then set_toRemoveVote p (toRemoveVote p ++ [id])
      else if negb wantsVote && negb isVoting
      then set_toKeepNonVoting p (toKeepNonVoting p ++ [id])
      else p
  end.

Definition machineIds (info : peerGroupInfo) : list string :=
  sortStrings (map_to_list (machines info)).*1.

Definition possiblePeerGroupChanges (p : peerGroupChanges) (info : peerGroupInfo)
    : peerGroupChanges :=
  foldl (classifyMachine info) p (machineIds info).

(** The search of the last branch of [reviewPeerGroupChanges]: index and id
    of the first entry that is not the primary. *)
Fixpoint firstNonPrimary (info : peerGroupInfo) (l : list string) (i : nat)
    : option (nat * string) :=
  match l with
  | [] => None
  | id :: rest =>
      if negb (isPrimaryMember info id) then Some (i, id)
      else firstNonPrimary info rest (S i)
  end.

Definition countVoters (ms : gmap string Member) : Z :=
  map_fold (λ _ m n, if isVotingMember m then (n + 1)%Z else n) 0%Z ms.

Definition reviewPeerGroupChanges (p : peerGroupChanges) (info : peerGroupInfo)
    : peerGroupChanges :=
  let currVoters := countVoters (members p) in
  let keptVoters := (currVoters - Z.of_nat (length (toRemoveVote p)))%Z in
  if decide (Z.rem (keptVoters + Z.of_nat (length (toAddVote p))) 2 = 1)%Z then p
  else if decide (0 < length (toAddVote p))
  then set_toAddVote p (take (length (toAddVote p) - 1) (toAddVote p))
  else if decide (keptVoters = 0)%Z
  then set_toRemoveVote p
         (filter (λ id, isPrimaryMember info id = false) (toRemoveVote p))
  else
    match firstNonPrimary info (toKeepVoting p) 0 with
    | None => p
    | Some (i, id) =>
        let keep := toKeepVoting p in
        set_toKeepVoting (set_toRemoveVote p (toRemoveVote p ++ [id]))
          (if decide (i = length keep - 1) then take i keep
           else take i keep ++ drop (S i) keep)
    end.

Definition setMemberVoting (member : Member) (voting : bool) : Member :=
  if voting
  then {| Id := Id member; Address := Address member; Tags := Tags member;
          Votes := None; Priority := None |}
  else {| Id := Id member; Address := Address member; Tags := Tags member;
          Votes := Some 0%Z; Priority := Some 0%Z |}.

(** The body shared by the two loops of [createNonVotingMember]. *)
Definition newNonVotingMember (id : string) (maxId : Z) : Member :=
  setMemberVoting
    {| Id := maxId; Address := ""; Tags := {[ jujuMachineKey := id ]};
       Votes := None; Priority := None |} false.

Definition createMember (acc : peerGroupChanges * Z) (id : string) : peerGroupChanges * Z :=
  let maxId := wrap64 (acc.2 + 1) in
  let member := newNonVotingMember id maxId in
  (set_members acc.1 (<[id := member]> (members acc.1)), maxId).

Definition createNonVotingMember (p : peerGroupChanges) (maxId : Z) : peerGroupChanges * Z :=
  let acc := foldl createMember (p, maxId) (toKeepCreateNonVotingMember p) in
  foldl (λ acc id,
      match members acc.1 !! id with
      | Some _ => acc
      | None => createMember acc id
      end) acc (toKeepNonVoting p).

(** [setVoting] dereferences [p.members[id]]: an id without a member panics. *)
Fixpoint setVoting (memberIds : list string) (voting : bool) (p : peerGroupChanges)
    : option peerGroupChanges :=
  match memberIds with
  | [] => Some p
  | id :: rest =>
      match members p !! id with
      | None => None
      | Some member =>
          setVoting rest voting
            (set_machineVoting
               (set_members p (<[id := setMemberVoting member voting]> (members p)))
               (<[id := voting]> (machineVoting p)))
      end
  end.

Definition adjustVotes (p : peerGroupChanges) : option peerGroupChanges :=
  let p := if bool_decide (0 < length (toAddVote p))
              || bool_decide (0 < length (toRemoveVote p))
              || bool_decide (0 < length (toKeepCreateNonVotingMember p))
           then set_isChanged p true else p in
  p ← setVoting (toAddVote p) true p;
  p ← setVoting (toRemoveVote p) false p;
  setVoting (toKeepCreateNonVotingMember p) false p.

Definition setAddress (m : Member) (addr : string) : Member :=
  {| Id := Id m; Address := addr; Tags := Tags m; Votes := Votes m; Priority := Priority m |}.

Definition updateAddresses (p : peerGroupChanges) : peerGroupChanges :=
  map_fold (λ id addr (p : peerGroupChanges),
      if decide (addr = "") then p
      else match members p !! id with
           | None => p
           | Some m =>
               if decide (addr ≠ Address m)
               then set_isChanged (set_members p (<[id := setAddress m addr]> (members p))) true
               else p
           end)
    p (addrs p).

(** ** desiredPeerGroup *)

Definition newChanges : peerGroupChanges :=
  {| isChanged := false; toRemoveVote := []; toAddVote := []; toKeepVoting := [];
     toKeepNonVoting := []; toKeepCreateNonVotingMember := [];
     machineVoting := ∅; addrs := ∅; members := ∅ |}.

(** The part of [desiredPeerGroup] between the two error checks and the
    adjustment of the votes: the proposal on which [adjustVotes] runs,
    together with the bumped [info.maxMemberId]. *)
Definition proposeChanges (p : peerGroupChanges) (info : peerGroupInfo)
    : peerGroupChanges * Z :=
  let p := set_members p (initNewReplicaSet info) in
  let p := possiblePeerGroupChanges p info in
  let p := reviewPeerGroupChanges p info in
  createNonVotingMember p (maxMemberId info).

Definition desiredPeerGroup (info : peerGroupInfo)
    : option (option (gmap string Member) * option (gmap string bool) * option error) :=
  let peerChanges := newChanges in
  match checkExtraMembers peerChanges (extra info) with
  | (_, Some err) => Some (None, None, Some err)
  | (peerChanges, None) =>
      match getMongoAddresses peerChanges info with
      | (_, Some err) => Some (None, None, Some err)
      | (peerChanges, None) =>
          let peerChanges := (proposeChanges peerChanges info).1 in
          let peerChanges := getMachinesVoting peerChanges in
          peerChanges ← adjustVotes peerChanges;
          let peerChanges := updateAddresses peerChanges in
          if isChanged peerChanges
          then Some (Some (members peerChanges), Some (machineVoting peerChanges), None)
          else Some (None, Some (machineVoting peerChanges), None)
      end
  end.

(** The states [desiredPeerGroup] goes through on a snapshot that passes the
    two error checks: after the checks, after the classifier, after the
    adjuster, and after the member synthesiser (with the bumped maximum). *)
Definition checkedChanges (info : peerGroupInfo) : peerGroupChanges :=
  (getMongoAddresses (checkExtraMembers newChanges (extra info)).1 info).1.

Definition classifiedChanges (info : peerGroupInfo) : peerGroupChanges :=
  possiblePeerGroupChanges (set_members (checkedChanges info) (initNewReplicaSet info)) info.

Definition reviewedChanges (info : peerGroupInfo) : peerGroupChanges :=
  reviewPeerGroupChanges (classifiedChanges info) info.

Definition proposedChanges (info : peerGroupInfo) : peerGroupChanges * Z :=
  proposeChanges (checkedChanges info) info.

(** ** The classification table of the specification

    The second definition of the classifier, written from the table of the
    specification; the theorems below compare it with the loop of
    [possiblePeerGroupChanges]. *)

Inductive bucket :=
  | KeepVoting
  | AddVote
  | KeepNonVoting
  | KeepCreateNonVotingMember
  | RemoveVote.

#[global] Instance bucket_eq_dec : EqDecision bucket.
Proof. solve_decision. Defined.

Definition table (wantsVote isVoting ready memberExists : bool) : bucket :=
  match wantsVote, isVoting with
  | true, true => KeepVoting
  | true, false =>
      if ready then AddVote
      else if memberExists then KeepNonVoting
      else KeepCreateNonVotingMember
  | false, true => RemoveVote
  | false, false => KeepNonVoting
  end.

Definition bucketList (b : bucket) (p : peerGroupChanges) : list string :=
  match b with
  | KeepVoting => toKeepVoting p
  | AddVote => toAddVote p
  | KeepNonVoting => toKeepNonVoting p
  | KeepCreateNonVotingMember => toKeepCreateNonVotingMember p
  | RemoveVote => toRemoveVote p
  end.

(** "a recognised member exists with Votes nil or greater than 0" *)
Definition votesNow (ms : gmap string Member) (id : string) : bool :=
  match ms !! id with
  | Some m => match Votes m with None => true | Some v => bool_decide (0 < v)%Z end
  | None => false
  end.

(** "a status exists that is healthy with state Primary or Secondary" *)
Definition readyNow (info : peerGroupInfo) (id : string) : bool :=
  match statuses info !! id with
  | Some s =>
      bool_decide (Healthy s = true ∧ (State s = PrimaryState ∨ State s = SecondaryState))
  | None => false
  end.

Definition tableBucket (info : peerGroupInfo) (ms : gmap string Member) (id : string)
    : option bucket :=
  m ← machines info !! id;
  Some (table (WantsVote m) (votesNow ms id) (readyNow info id)
          (bool_decide (is_Some (ms !! id)))).

(** Appending a machine id to the list of a bucket. *)
Definition push (b : bucket) (id : string) (p : peerGroupChanges) : peerGroupChanges :=
  match b with
  | KeepVoting => set_toKeepVoting p (toKeepVoting p ++ [id])
  | AddVote => set_toAddVote p (toAddVote p ++ [id])
  | KeepNonVoting => set_toKeepNonVoting p (toKeepNonVoting p ++ [id])
  | KeepCreateNonVotingMember =>
      set_toKeepCreateNonVotingMember p (toKeepCreateNonVotingMember p ++ [id])
  | RemoveVote => set_toRemoveVote p (toRemoveVote p ++ [id])
  end.

(** The machine id under which the assembler recognises a member: the value
    of its machine-id tag when that names a known machine. *)
Definition knownTag (ms : gmap string machineTracker) (m : Member) : option string :=
  id ← Tags m !! jujuMachineKey;
  if bool_decide (is_Some (ms !! id)) then Some id else None.

(** The machine ids for which [createNonVotingMember] makes a member, in the
    order in which it makes them. *)
Definition createdIds (p : peerGroupChanges) : list string :=
  toKeepCreateNonVotingMember p ++
  filter (λ id, members p !! id = None ∧ id ∉ toKeepCreateNonVotingMember p)
    (toKeepNonVoting p).

(** The facts about a snapshot on which the reconciler relies. *)
Record snapshot_ok (info : peerGroupInfo) : Prop := {
  ok_recognised_known : ∀ id, is_Some (recognised info !! id) → is_Some (machines info !! id);
  ok_status_recognised : ∀ id,
    is_Some (statuses info !! id) → is_Some (machines info !! id) →
    is_Some (recognised info !! id);
}.



(** ** Sample snapshots

    The inputs on which the statements below are exercised. *)

Definition tracker (wants : bool) (addr : string) : machineTracker :=
  {| WantsVote := wants; SelectMongoAddress := λ _ _, (addr, None) |}.

Definition taggedMember (i : Z) (machine addr : string) (votes : option Z) : Member :=
  {| Id := i; Address := addr; Tags := {[ jujuMachineKey := machine ]};
     Votes := votes; Priority := None |}.

Definition assemble (ms : gmap string machineTracker) (sts : list MemberStatus)
    (mems : list Member) : peerGroupInfo :=
  foldl (assembleMember ms sts)
    {| machines := ms; statuses := ∅; recognised := ∅; extra := [];
       maxMemberId := -1; mongoPort := 37017; haSpace := "" |} mems.

(** Three controllers, all voting, machine "0" being the primary. *)
Definition steadyMachines : gmap string machineTracker :=
  <["0" := tracker true "10.0.0.1:37017"]>
    (<["1" := tracker true "10.0.0.2:37017"]>
       (<["2" := tracker true "10.0.0.3:37017"]> ∅)).
Definition steadyMembers : list Member :=
  [taggedMember 1 "0" "10.0.0.1:37017" None;
   taggedMember 2 "1" "10.0.0.2:37017" None;
   taggedMember 3 "2" "10.0.0.3:37017" None].
Definition steadyStatuses : list MemberStatus :=
  [mkStatus 1 true PrimaryState; mkStatus 2 true SecondaryState;
   mkStatus 3 true SecondaryState].
Definition steadyInfo : peerGroupInfo :=
  assemble steadyMachines steadyStatuses steadyMembers.

(** Two members carrying the tag of the same known machine. *)
Definition twinMachines : gmap string machineTracker :=
  {[ "0" := tracker true "10.0.0.1:37017" ]}.
Definition twinMembers : list Member :=
  [taggedMember 1 "0" "10.0.0.1:37017" None;
   taggedMember 2 "0" "10.0.0.9:37017" (Some 0%Z)].
Definition twinInfo : peerGroupInfo := assemble twinMachines [] twinMembers.

(** A member tagged with a machine that is not known, with a status. *)
Definition strayMembers : list Member :=
  [taggedMember 1 "0" "10.0.0.1:37017" None;
   taggedMember 2 "5" "10.0.0.5:37017" (Some 0%Z)].
Definition strayStatuses : list MemberStatus :=
  [mkStatus 1 true PrimaryState; mkStatus 2 true SecondaryState].
Definition strayInfo : peerGroupInfo := assemble twinMachines strayStatuses strayMembers.

(** A snapshot whose highest member id is the greatest [int], with a new
    machine that has no member yet. *)
Definition brimMachines : gmap string machineTracker :=
  <["1" := tracker true "10.0.0.2:37017"]> twinMachines.
Definition brimMembers : list Member :=
  [taggedMember maxInt64 "0" "10.0.0.1:37017" None].
Definition brimInfo : peerGroupInfo :=
  assemble brimMachines [mkStatus maxInt64 true PrimaryState] brimMembers.


(** A fourth controller that is ready to vote joins the three steady ones. *)
Definition candidateInfo : peerGroupInfo :=
  assemble (<["3" := tracker true "10.0.0.4:37017"]> steadyMachines)
    (steadyStatuses ++ [mkStatus 4 true SecondaryState])
    (steadyMembers ++ [taggedMember 4 "3" "10.0.0.4:37017" (Some 0%Z)]).


(** The primary's machine no longer wants the vote; machine "1" keeps voting. *)
Definition retireMachines : gmap string machineTracker :=
  <["0" := tracker false "10.0.0.1:37017"]> {[ "1" := tracker true "10.0.0.2:37017" ]}.
Definition retireMembers : list Member :=
  [taggedMember 1 "0" "10.0.0.1:37017" None; taggedMember 2 "1" "10.0.0.2:37017" None].
Definition retireStatuses : list MemberStatus :=
  [mkStatus 1 true PrimaryState; mkStatus 2 true SecondaryState].
Definition retireInfo : peerGroupInfo := assemble retireMachines retireStatuses retireMembers.

(** A voting primary, and a tracked machine that wants no vote, has no
    member yet and no address yet. *)
Definition idleMachines : gmap string machineTracker :=
  <["1" := tracker false ""]> twinMachines.
Definition idleMembers : list Member := [taggedMember 1 "0" "10.0.0.1:37017" None].
Definition idleStatuses : list MemberStatus := [mkStatus 1 true PrimaryState].
Definition idleInfo : peerGroupInfo := assemble idleMachines idleStatuses idleMembers.

(** A tracker whose address selection fails. *)
Definition lostTracker (wants : bool) : machineTracker :=
  {| WantsVote := wants;
     SelectMongoAddress := λ _ _, ("", Some "no usable address") |}.

(** The steady controllers with an extra voting member and an extra
    non-voting one, and with a machine whose address cannot be selected. *)
Definition crowdedMembers : list Member :=
  steadyMembers ++
  [mkMember 7 "10.0.0.7:37017" ∅ (Some 0%Z) (Some 0%Z);
   mkMember 8 "10.0.0.8:37017" ∅ (Some 1%Z) None;
   mkMember 9 "10.0.0.9:37017" ∅ None None].
Definition crowdedInfo : peerGroupInfo :=
  assemble steadyMachines steadyStatuses crowdedMembers.
Definition lostMachines : gmap string machineTracker :=
  <["3" := lostTracker true]> steadyMachines.
Definition lostInfo : peerGroupInfo :=
  assemble lostMachines steadyStatuses steadyMembers.

(** Machine "2" of the steady controllers no longer wants its vote. *)
Definition leavingMachines : gmap string machineTracker :=
  <["2" := tracker false "10.0.0.3:37017"]> steadyMachines.
Definition leavingInfo : peerGroupInfo :=
  assemble leavingMachines steadyStatuses steadyMembers.

(** The proposal for the leaving machine before and after the votes are
    adjusted. *)
Definition leavingProposal : peerGroupChanges :=
  getMachinesVoting (proposedChanges leavingInfo).1.
Definition leavingAdjusted : peerGroupChanges :=
  default newChanges (adjustVotes leavingProposal).

(** ** The order of [sort.Strings] *)

Section string_order.

Lemma ascii_compare_refl c : Ascii.compare c c = Eq.
Proof. unfold Ascii.compare. apply N.compare_refl. Qed.

Lemma ascii_compare_lt_trans a b c :
  Ascii.compare a b = Lt → Ascii.compare b c = Lt → Ascii.compare a c = Lt.
Proof.
  unfold Ascii.compare. rewrite !N.compare_lt_iff. lia.
Qed.

Lemma string_compare_le_trans a : ∀ b c,
  String.compare a b ≠ Gt → String.compare b c ≠ Gt → String.compare a c ≠ Gt.
Proof.
  induction a as [|x a IH]; intros [|y b] [|z c]; simpl; try congruence.
  destruct (Ascii.compare x y) eqn:Hxy; try congruence;
    destruct (Ascii.compare y z) eqn:Hyz; try congruence.
  - apply Ascii.compare_eq_iff in Hxy, Hyz. subst.
    rewrite ascii_compare_refl. apply IH.
  - apply Ascii.compare_eq_iff in Hxy. subst. by rewrite Hyz.
  - apply Ascii.compare_eq_iff in Hyz. subst. by rewrite Hxy.
  - by rewrite (ascii_compare_lt_trans _ _ _ Hxy Hyz).
Qed.

#[global] Instance string_le_trans : Transitive string_le.
Proof.
  intros a b c. unfold string_le, String.leb. intros Hab Hbc.
  pose proof (string_compare_le_trans a b c) as Ht.
  destruct (String.compare a b), (String.compare b c), (String.compare a c);
    simpl in *; try done; exfalso; apply Ht; congruence.
Qed.

#[global] Instance string_le_total : Total string_le.
Proof.
  intros a b. unfold string_le.
  destruct (String.leb_total a b) as [-> | ->]; simpl; auto.
Qed.

#[global] Instance string_le_antisymm : AntiSymm (=) string_le.
Proof.
  intros a b Hab Hba. unfold string_le in *.
  apply String.leb_antisym; by apply Is_true_eq_true.
Qed.

Lemma sortStrings_perm l : sortStrings l ≡ₚ l.
Proof. apply merge_sort_Permutation. Qed.

Lemma sortStrings_sorted l : StronglySorted string_le (sortStrings l).
Proof. apply StronglySorted_merge_sort; apply _. Qed.

Lemma StronglySorted_filter_list {A} (R : relation A) (P : A → Prop)
    `{!∀ x, Decision (P x)} (l : list A) :
  StronglySorted R l → StronglySorted R (filter P l).
Proof.
  induction 1 as [|x l Hl IH Hx]; [constructor|].
  rewrite filter_cons. case_decide; [|done].
  constructor; [done|].
  apply Forall_forall. intros y [_ Hy]%list_elem_of_filter.
  by eapply Forall_forall in Hx.
Qed.

End string_order.

(** ** The machine ids in sorted order *)

Lemma elem_of_machineIds info id : id ∈ machineIds info ↔ is_Some (machines info !! id).
Proof.
  unfold machineIds. rewrite sortStrings_perm, list_elem_of_fmap. split.
  - intros [[k m] [-> Hin%elem_of_map_to_list]]. by exists m.
  - intros [m Hm]. exists (id, m). split; [done|]. by apply elem_of_map_to_list.
Qed.

Lemma NoDup_machineIds info : NoDup (machineIds info).
Proof.
  unfold machineIds. rewrite sortStrings_perm. apply NoDup_fst_map_to_list.
Qed.

Lemma machineIds_sorted info : StronglySorted string_le (machineIds info).
Proof. apply sortStrings_sorted. Qed.

(** ** The classifier *)

Lemma isVotingMember_spec m :
  isVotingMember m = match Votes m with None => true | Some v => bool_decide (0 < v)%Z end.
Proof.
  unfold isVotingMember. destruct (Votes m) as [v|]; [|done].
  destruct (Z.gtb_spec v 0); symmetry; [apply bool_decide_eq_true | apply bool_decide_eq_false]; lia.
Qed.

Lemma votesNow_spec ms id :
  votesNow ms id = match ms !! id with Some m => isVotingMember m | None => false end.
Proof. unfold votesNow. destruct (ms !! id); [by rewrite isVotingMember_spec|done]. Qed.

Lemma votesNow_true ms id :
  votesNow ms id = true ↔ ∃ m, ms !! id = Some m ∧ isVotingMember m = true.
Proof.
  rewrite votesNow_spec. destruct (ms !! id) as [m|]; [|naive_solver].
  split; [by exists m|]. intros (m' & Heq & Hv). by simplify_eq.
Qed.

Lemma readyNow_spec info id :
  readyNow info id = match statuses info !! id with Some s => isReady s | None => false end.
Proof.
  unfold readyNow, isReady. destruct (statuses info !! id) as [s|]; [|done].
  destruct (Healthy s), (State s); by vm_compute.
Qed.

Lemma classifyMachine_table info p id :
  classifyMachine info p id =
    match tableBucket info (members p) id with
    | Some b => push b id p
    | None => p
    end.
Proof.
  unfold classifyMachine, tableBucket.
  destruct (machines info !! id) as [m|]; simpl; [|done].
  rewrite votesNow_spec, readyNow_spec.
  destruct (WantsVote m), (members p !! id) as [mem|]; simpl;
    try destruct (isVotingMember mem); simpl; try done;
    destruct (statuses info !! id) as [s|]; simpl; try done;
    destruct (isReady s); simpl; done.
Qed.

Lemma push_members b id p : members (push b id p) = members p.
Proof. by destruct b. Qed.

Lemma push_bucketList b b' id p :
  bucketList b' (push b id p) =
    if decide (b = b') then bucketList b' p ++ [id] else bucketList b' p.
Proof. by destruct b, b'. Qed.

Lemma push_frame b id p :
  isChanged (push b id p) = isChanged p ∧ addrs (push b id p) = addrs p ∧
  machineVoting (push b id p) = machineVoting p.
Proof. by destruct b. Qed.

Lemma classify_fold info l : ∀ p,
  let q := foldl (classifyMachine info) p l in
  members q = members p ∧ isChanged q = isChanged p ∧ addrs q = addrs p ∧
  machineVoting q = machineVoting p ∧
  ∀ b, bucketList b q =
       bucketList b p ++ filter (λ id, tableBucket info (members p) id = Some b) l.
Proof.
  induction l as [|id l IH]; intros p; simpl.
  - repeat split; intros; by rewrite app_nil_r.
  - destruct (IH (classifyMachine info p id)) as (Hm & Hc & Ha & Hv & Hb).
    rewrite classifyMachine_table in *.
    destruct (tableBucket info (members p) id) as [b0|] eqn:Hb0.
    + rewrite push_members in *. destruct (push_frame b0 id p) as (? & ? & ?).
      repeat split; try congruence.
      intros b. rewrite Hb, push_bucketList, filter_cons.
      repeat case_decide; simplify_eq; try done. by rewrite <-app_assoc.
    + repeat split; try done.
      intros b. rewrite Hb, filter_cons. case_decide; [congruence|done].
Qed.

Lemma possible_bucketList info p b :
  bucketList b (possiblePeerGroupChanges p info) =
    bucketList b p ++ filter (λ id, tableBucket info (members p) id = Some b) (machineIds info).
Proof. apply classify_fold. Qed.

Lemma possible_members info p :
  members (possiblePeerGroupChanges p info) = members p.
Proof. apply classify_fold. Qed.

Lemma elem_of_possible info p b id :
  bucketList b p = [] →
  id ∈ bucketList b (possiblePeerGroupChanges p info) ↔
  tableBucket info (members p) id = Some b.
Proof.
  intros Hnil. rewrite possible_bucketList, Hnil, app_nil_l, list_elem_of_filter.
  split; [naive_solver|]. intros Hb. split; [done|].
  apply elem_of_machineIds. unfold tableBucket in Hb.
  destruct (machines info !! id); [done|discriminate].
Qed.

Lemma NoDup_possible info p b :
  bucketList b p = [] → NoDup (bucketList b (possiblePeerGroupChanges p info)).
Proof.
  intros Hnil. rewrite possible_bucketList, Hnil, app_nil_l.
  apply NoDup_filter, NoDup_machineIds.
Qed.

Lemma possible_sorted info p b :
  bucketList b p = [] →
  StronglySorted string_le (bucketList b (possiblePeerGroupChanges p info)).
Proof.
  intros Hnil. rewrite possible_bucketList, Hnil, app_nil_l.
  apply StronglySorted_filter_list, machineIds_sorted.
Qed.

(** ** The quorum adjuster *)

Lemma even_rem_not_1 z : Z.even z = true → Z.rem z 2 ≠ 1%Z.
Proof.
  intros [k ->]%Z.even_spec. rewrite Z.mul_comm, Z.rem_mul by lia. lia.
Qed.

Lemma review_odd p info :
  Z.rem (countVoters (members p) - Z.of_nat (length (toRemoveVote p))
         + Z.of_nat (length (toAddVote p))) 2 = 1%Z →
  reviewPeerGroupChanges p info = p.
Proof. intros Hodd. unfold reviewPeerGroupChanges. by rewrite decide_True. Qed.

Lemma review_trim p info init last :
  Z.rem (countVoters (members p) - Z.of_nat (length (toRemoveVote p))
         + Z.of_nat (length (toAddVote p))) 2 ≠ 1%Z →
  toAddVote p = init ++ [last] →
  reviewPeerGroupChanges p info = set_toAddVote p init.
Proof.
  intros Heven Hadd. unfold reviewPeerGroupChanges.
  rewrite decide_False by done. rewrite Hadd in *.
  rewrite decide_True by (rewrite length_app; simpl; lia).
  f_equal. apply take_app_length'. rewrite length_app. simpl. lia.
Qed.

Lemma firstNonPrimary_Some info l : ∀ i j x,
  firstNonPrimary info l i = Some (j, x) →
  ∃ l1 l2, l = l1 ++ x :: l2 ∧ j = i + length l1 ∧ isPrimaryMember info x = false ∧
           Forall (λ id, isPrimaryMember info id = true) l1.
Proof.
  induction l as [|id l IH]; intros i j x; simpl; [done|].
  destruct (isPrimaryMember info id) eqn:Hp; simpl.
  - intros (l1 & l2 & -> & -> & Hx & Hl1)%IH.
    exists (id :: l1), l2. repeat split; simpl; [lia|done|by constructor].
  - intros [= <- <-]. exists [], l. repeat split; simpl; [lia|done|constructor].
Qed.

Lemma firstNonPrimary_None info l : ∀ i,
  firstNonPrimary info l i = None → Forall (λ id, isPrimaryMember info id = true) l.
Proof.
  induction l as [|id l IH]; intros i; simpl; [constructor|].
  destruct (isPrimaryMember info id) eqn:Hp; simpl; [|done].
  intros Hn. constructor; [done|by eapply IH].
Qed.

Lemma review_demote p info l1 x l2 :
  Z.rem (countVoters (members p) - Z.of_nat (length (toRemoveVote p))
         + Z.of_nat (length (toAddVote p))) 2 ≠ 1%Z →
  toAddVote p = [] →
  (countVoters (members p) - Z.of_nat (length (toRemoveVote p)))%Z ≠ 0%Z →
  toKeepVoting p = l1 ++ x :: l2 →
  Forall (λ id, isPrimaryMember info id = true) l1 →
  isPrimaryMember info x = false →
  reviewPeerGroupChanges p info =
    set_toKeepVoting (set_toRemoveVote p (toRemoveVote p ++ [x])) (l1 ++ l2).
Proof.
  intros Heven Hadd Hkept Hkeep Hl1 Hx. unfold reviewPeerGroupChanges.
  rewrite decide_False by done. rewrite Hadd. simpl.
  rewrite decide_False by done.
  destruct (firstNonPrimary info (toKeepVoting p) 0) as [[j y]|] eqn:Hf.
  - apply firstNonPrimary_Some in Hf as (k1 & k2 & Hk & -> & Hy & Hk1).
    assert (k1 = l1 ∧ y = x ∧ k2 = l2) as (-> & -> & ->).
    { rewrite Hkeep in Hk. clear -Hk Hl1 Hx Hy Hk1.
      revert k1 Hk Hk1. induction l1 as [|a l1 IH]; intros [|b k1] Hk Hk1; simplify_eq/=.
      - done.
      - apply Forall_cons in Hk1 as [? ?]. congruence.
      - apply Forall_cons in Hl1 as [? ?]. congruence.
      - apply Forall_cons in Hl1 as [? ?]. apply Forall_cons in Hk1 as [? ?].
        destruct (IH ltac:(done) k1) as (-> & -> & ->); done. }
    rewrite Hkeep. simpl. f_equal.
    rewrite take_app_length.
    assert (drop (S (length l1)) (l1 ++ x :: l2) = l2) as ->.
    { clear. induction l1; simpl; [done|]. by rewrite IHl1. }
    case_decide as Hlast; [|done].
    rewrite length_app in Hlast. simpl in Hlast.
    destruct l2; [by rewrite app_nil_r|]. simpl in Hlast. lia.
  - apply firstNonPrimary_None in Hf. rewrite Hkeep in Hf.
    apply Forall_app in Hf as [_ [Hx' _]%Forall_cons]. congruence.
Qed.

Lemma review_all_primary p info :
  Z.rem (countVoters (members p) - Z.of_nat (length (toRemoveVote p))
         + Z.of_nat (length (toAddVote p))) 2 ≠ 1%Z →
  toAddVote p = [] →
  (countVoters (members p) - Z.of_nat (length (toRemoveVote p)))%Z ≠ 0%Z →
  Forall (λ id, isPrimaryMember info id = true) (toKeepVoting p) →
  reviewPeerGroupChanges p info = p.
Proof.
  intros Heven Hadd Hkept Hall. unfold reviewPeerGroupChanges.
  rewrite decide_False by done. rewrite Hadd. simpl.
  rewrite decide_False by done.
  destruct (firstNonPrimary info (toKeepVoting p) 0) as [[j y]|] eqn:Hf; [|done].
  apply firstNonPrimary_Some in Hf as (k1 & k2 & Hk & -> & Hy & Hk1).
  rewrite Hk in Hall. apply Forall_app in Hall as [_ [Hy' _]%Forall_cons]. congruence.
Qed.

Lemma review_wind_down p info :
  Z.rem (countVoters (members p) - Z.of_nat (length (toRemoveVote p))
         + Z.of_nat (length (toAddVote p))) 2 ≠ 1%Z →
  toAddVote p = [] →
  (countVoters (members p) - Z.of_nat (length (toRemoveVote p)))%Z = 0%Z →
  reviewPeerGroupChanges p info =
    set_toRemoveVote p (filter (λ id, isPrimaryMember info id = false) (toRemoveVote p)).
Proof.
  intros Heven Hadd Hkept. unfold reviewPeerGroupChanges.
  rewrite decide_False by done. rewrite Hadd. simpl.
  by rewrite decide_True.
Qed.

(** ** The snapshot assembler *)

Lemma linkStatuses_is_Some sts m id : ∀ acc id',
  is_Some (linkStatuses sts m id acc !! id') ↔
  is_Some (acc !! id') ∨ (id' = id ∧ ∃ s, s ∈ sts ∧ sts_Id s = Id m).
Proof.
  unfold linkStatuses. induction sts as [|s sts IH]; intros acc id'; simpl.
  - split; [auto|]. intros [?|(_ & s & Hs & _)]; [done|]. by apply elem_of_nil in Hs.
  - rewrite IH. case_decide as Hs.
    + rewrite lookup_insert_is_Some. split.
      * intros [[->|[_ ?]]|(-> & s' & ? & ?)]; [right|by left|right].
        -- split; [done|]. exists s. split; [apply list_elem_of_here|done].
        -- split; [done|]. exists s'. split; [by apply list_elem_of_further|done].
      * intros [?|(-> & s' & _ & _)]; left.
        -- destruct (decide (id = id')); auto.
        -- by left.
    + split.
      * intros [?|(-> & s' & ? & ?)]; [by left|right].
        split; [done|]. exists s'. split; [by apply list_elem_of_further|done].
      * intros [?|(-> & s' & [->|?]%elem_of_cons & ?)]; [by left|done|right].
        split; [done|]. by exists s'.
Qed.

Lemma assembleMember_fields ms sts info m :
  let info' := assembleMember ms sts info m in
  machines info' = machines info ∧
  recognised info' =
    match knownTag ms m with
    | Some id => <[id := m]> (recognised info)
    | None => recognised info
    end ∧
  extra info' =
    match knownTag ms m with
    | Some _ => extra info
    | None => extra info ++ [m]
    end ∧
  statuses info' =
    match Tags m !! jujuMachineKey with
    | Some id => linkStatuses sts m id (statuses info)
    | None => statuses info
    end ∧
  maxMemberId info' = Z.max (maxMemberId info) (Id m).
Proof.
  unfold assembleMember, knownTag.
  destruct (Tags m !! jujuMachineKey) as [id|]; simpl.
  - destruct (ms !! id) as [t|] eqn:Hid; simpl.
    + destruct (Z.gtb_spec (Id m) (maxMemberId info)); simpl; repeat split; lia.
    + destruct (Z.gtb_spec (Id m) (maxMemberId info)); simpl; repeat split; lia.
  - destruct (Z.gtb_spec (Id m) (maxMemberId info)); simpl; repeat split; lia.
Qed.

Lemma assemble_machines ms sts mems : ∀ info,
  machines (foldl (assembleMember ms sts) info mems) = machines info.
Proof.
  induction mems as [|m mems IH]; intros info; simpl; [done|].
  rewrite IH. apply assembleMember_fields.
Qed.

Lemma assemble_extra ms sts mems : ∀ info,
  extra (foldl (assembleMember ms sts) info mems) =
    extra info ++ filter (λ m, knownTag ms m = None) mems.
Proof.
  induction mems as [|m mems IH]; intros info; simpl; [by rewrite app_nil_r|].
  rewrite IH, filter_cons.
  destruct (assembleMember_fields ms sts info m) as (_ & _ & -> & _).
  destruct (knownTag ms m); case_decide; try done. by rewrite <-app_assoc.
Qed.

Lemma assemble_recognised ms sts mems : ∀ info id,
  recognised (foldl (assembleMember ms sts) info mems) !! id =
    match last (filter (λ m, knownTag ms m = Some id) mems) with
    | Some m => Some m
    | None => recognised info !! id
    end.
Proof.
  induction mems as [|m mems IH]; intros info id; simpl; [done|].
  rewrite IH, filter_cons.
  destruct (assembleMember_fields ms sts info m) as (_ & -> & _).
  case_decide as Hm.
  - rewrite Hm, last_cons, lookup_insert_eq.
    by destruct (last (filter _ mems)).
  - destruct (last (filter _ mems)); [done|].
    destruct (knownTag ms m) as [id'|]; [|done].
    rewrite lookup_insert_ne; [done|congruence].
Qed.

Lemma assemble_statuses ms sts mems : ∀ info id,
  is_Some (statuses (foldl (assembleMember ms sts) info mems) !! id) ↔
  is_Some (statuses info !! id) ∨
  ∃ m s, m ∈ mems ∧ Tags m !! jujuMachineKey = Some id ∧ s ∈ sts ∧ sts_Id s = Id m.
Proof.
  induction mems as [|m mems IH]; intros info id; simpl.
  - split; [auto|]. intros [?|(m & _ & Hm & _)]; [done|]. by apply elem_of_nil in Hm.
  - rewrite IH.
    destruct (assembleMember_fields ms sts info m) as (_ & _ & _ & -> & _).
    destruct (Tags m !! jujuMachineKey) as [id'|] eqn:Htag.
    + rewrite linkStatuses_is_Some. split.
      * intros [[?|(-> & s & ? & ?)]|(m' & s & ? & ? & ? & ?)]; [by left|right..].
        -- exists m, s. split; [apply list_elem_of_here|done].
        -- exists m', s. split; [by apply list_elem_of_further|done].
      * intros [?|(m' & s & [->|?]%elem_of_cons & Ht & ? & ?)]; [by left; left|..].
        -- left; right. split; [congruence|]. by exists s.
        -- right. by exists m', s.
    + split.
      * intros [?|(m' & s & ? & ? & ? & ?)]; [by left|right].
        exists m', s. split; [by apply list_elem_of_further|done].
      * intros [?|(m' & s & [->|?]%elem_of_cons & Ht & ? & ?)]; [by left|congruence|].
        right. by exists m', s.
Qed.

Lemma assemble_maxMemberId ms sts mems : ∀ info,
  let info' := foldl (assembleMember ms sts) info mems in
  (maxMemberId info ≤ maxMemberId info')%Z ∧
  (∀ m, m ∈ mems → Id m ≤ maxMemberId info')%Z ∧
  (maxMemberId info' = maxMemberId info ∨ ∃ m, m ∈ mems ∧ maxMemberId info' = Id m).
Proof.
  induction mems as [|m mems IH]; intros info; simpl.
  - split; [lia|]. split; [|by left]. intros m Hm. by apply elem_of_nil in Hm.
  - destruct (IH (assembleMember ms sts info m)) as (Hle & Hall & Hwit).
    destruct (assembleMember_fields ms sts info m) as (_ & _ & _ & _ & Hmax).
    rewrite Hmax in *. split; [lia|]. split.
    + intros m' [->|Hm']%elem_of_cons; [lia|by apply Hall].
    + destruct Hwit as [->|(m' & Hm' & ->)].
      * destruct (Z.max_spec (maxMemberId info) (Id m)) as [[_ ->]|[_ ->]]; [right|by left].
        exists m. split; [apply list_elem_of_here|done].
      * right. exists m'. split; [by apply list_elem_of_further|done].
Qed.

Lemma newPeerGroupInfo_Some ms sts mems port space info :
  newPeerGroupInfo ms sts mems port space = (Some info, None) →
  mems ≠ [] ∧
  info = foldl (assembleMember ms sts)
           {| machines := ms; statuses := ∅; recognised := ∅; extra := [];
              maxMemberId := -1; mongoPort := port; haSpace := space |} mems.
Proof.
  unfold newPeerGroupInfo. case_decide as Hlen; [done|].
  intros [= <-]. split; [|done]. intros ->. done.
Qed.

Lemma knownTag_Some ms m id :
  knownTag ms m = Some id ↔ Tags m !! jujuMachineKey = Some id ∧ is_Some (ms !! id).
Proof.
  unfold knownTag. destruct (Tags m !! jujuMachineKey) as [id'|]; simpl; [|naive_solver].
  case_bool_decide; naive_solver.
Qed.

Lemma last_filter_Some {A} (P : A → Prop) `{!∀ x, Decision (P x)} (l : list A) x :
  last (filter P l) = Some x → x ∈ l ∧ P x.
Proof.
  intros Hl. assert (x ∈ filter P l) as Hin.
  { apply last_Some in Hl as [l' ->]. apply elem_of_app. right. apply list_elem_of_here. }
  apply list_elem_of_filter in Hin. tauto.
Qed.

Lemma last_filter_None {A} (P : A → Prop) `{!∀ x, Decision (P x)} (l : list A) x :
  last (filter P l) = None → x ∈ l → ¬ P x.
Proof.
  intros Hl Hx HP. apply last_None in Hl.
  assert (x ∈ filter P l) as Hin by (apply list_elem_of_filter; done).
  rewrite Hl in Hin. by apply elem_of_nil in Hin.
Qed.

Lemma newPeerGroupInfo_ok ms sts mems port space info :
  newPeerGroupInfo ms sts mems port space = (Some info, None) → snapshot_ok info.
Proof.
  intros [_ ->]%newPeerGroupInfo_Some. split; intros id; rewrite assemble_machines; simpl.
  - rewrite assemble_recognised. simpl. rewrite lookup_empty.
    destruct (last _) as [m|] eqn:Hl; [|by intros [? ?]].
    intros _. apply last_filter_Some in Hl as [_ Hk]. apply knownTag_Some in Hk. tauto.
  - rewrite assemble_statuses, assemble_recognised. simpl. rewrite !lookup_empty.
    intros [[? ?]|(m & s & Hm & Htag & _)] Hid; [done|].
    destruct (last _) as [m'|] eqn:Hl; [done|].
    exfalso. eapply last_filter_None; [exact Hl|exact Hm|]. by apply knownTag_Some.
Qed.

Lemma NoDup_omap_eq {A B} (f : A → option B) (l : list A) x y k :
  NoDup (omap f l) → x ∈ l → y ∈ l → f x = Some k → f y = Some k → x = y.
Proof.
  induction l as [|a l IH]; simpl; intros Hnd Hx Hy Hfx Hfy.
  - by apply elem_of_nil in Hx.
  - assert (∀ z, z ∈ l → f z = Some k → k ∈ omap f l) as Hin.
    { intros z Hz Hfz. apply list_elem_of_omap. by exists z. }
    apply elem_of_cons in Hx as [->|Hx]; apply elem_of_cons in Hy as [->|Hy]; [done|..].
    + rewrite Hfx in Hnd. apply NoDup_cons in Hnd as [Hk _]. destruct Hk. by eapply Hin.
    + rewrite Hfy in Hnd. apply NoDup_cons in Hnd as [Hk _]. destruct Hk. by eapply Hin.
    + apply IH; try done. destruct (f a); [by apply NoDup_cons in Hnd as [_ ?]|done].
Qed.

(** C8, as amended: when no two input members carry the tag of the same known
    machine, every input member is either in the recognised map, under
    exactly one machine id, and not in the extra list, or in the extra list
    and nowhere in the recognised map. *)
Theorem member_recognised_or_extra ms sts mems port space info :
  newPeerGroupInfo ms sts mems port space = (Some info, None) →
  NoDup (omap (knownTag ms) mems) →
  ∀ m, m ∈ mems →
    ((∃ id, recognised info !! id = Some m ∧
            ∀ id', recognised info !! id' = Some m → id' = id) ∧ m ∉ extra info)
    ∨ ((∀ id, recognised info !! id ≠ Some m) ∧ m ∈ extra info).
Proof.
  intros [_ ->]%newPeerGroupInfo_Some Hnd m Hm.
  assert (∀ id, recognised (foldl (assembleMember ms sts)
            {| machines := ms; statuses := ∅; recognised := ∅; extra := [];
               maxMemberId := -1; mongoPort := port; haSpace := space |} mems) !! id = Some m →
          knownTag ms m = Some id) as Hrec.
  { intros id. rewrite assemble_recognised. simpl. rewrite lookup_empty.
    destruct (last _) as [m'|] eqn:Hl; [|done].
    intros [= ->]. by apply last_filter_Some in Hl as [_ ?]. }
  rewrite assemble_extra. simpl.
  destruct (knownTag ms m) as [id|] eqn:Hk.
  - left. split.
    + exists id. split; [|intros id' Hid'%Hrec; congruence].
      rewrite assemble_recognised. simpl. rewrite lookup_empty.
      destruct (last _) as [m'|] eqn:Hl.
      * apply last_filter_Some in Hl as [Hm' Hk']. f_equal.
        by apply (NoDup_omap_eq (knownTag ms) mems m' m id).
      * exfalso. by eapply last_filter_None.
    + intros [Hn _]%list_elem_of_filter. congruence.
  - right. split.
    + intros id Hid%Hrec. congruence.
    + by apply list_elem_of_filter.
Qed.

Lemma member_recognised_or_extra_witness :
  newPeerGroupInfo steadyMachines steadyStatuses steadyMembers 37017 "" = (Some steadyInfo, None) ∧
  NoDup (omap (knownTag steadyMachines) steadyMembers) ∧
  taggedMember 2 "1" "10.0.0.2:37017" None ∈ steadyMembers ∧
  (((∃ id, recognised steadyInfo !! id = Some (taggedMember 2 "1" "10.0.0.2:37017" None) ∧
           ∀ id', recognised steadyInfo !! id' = Some (taggedMember 2 "1" "10.0.0.2:37017" None) →
                  id' = id) ∧
    taggedMember 2 "1" "10.0.0.2:37017" None ∉ extra steadyInfo)
   ∨ ((∀ id, recognised steadyInfo !! id ≠ Some (taggedMember 2 "1" "10.0.0.2:37017" None)) ∧
      taggedMember 2 "1" "10.0.0.2:37017" None ∈ extra steadyInfo)).
Proof.
  assert (newPeerGroupInfo steadyMachines steadyStatuses steadyMembers 37017 ""
          = (Some steadyInfo, None)) as H1 by reflexivity.
  assert (NoDup (omap (knownTag steadyMachines) steadyMembers)) as H2
    by (apply (bool_decide_unpack _); vm_compute; exact I).
  assert (taggedMember 2 "1" "10.0.0.2:37017" None ∈ steadyMembers) as H3
    by (apply list_elem_of_further, list_elem_of_here).
  split; [exact H1|]. split; [exact H2|]. split; [exact H3|].
  exact (member_recognised_or_extra steadyMachines steadyStatuses steadyMembers 37017 ""
           steadyInfo H1 H2 _ H3).
Defined.

(** C8 as stated fails: of two members tagged with the same known machine the
    first one ends up neither recognised nor extra. *)
Lemma twin_member_dropped :
  newPeerGroupInfo twinMachines [] twinMembers 37017 "" = (Some twinInfo, None) ∧
  taggedMember 1 "0" "10.0.0.1:37017" None ∈ twinMembers ∧
  (∀ id, recognised twinInfo !! id ≠ Some (taggedMember 1 "0" "10.0.0.1:37017" None)) ∧
  taggedMember 1 "0" "10.0.0.1:37017" None ∉ extra twinInfo.
Proof.
  split; [reflexivity|]. split; [apply list_elem_of_here|]. split.
  - intros id.
    assert (recognised twinInfo = {[ "0" := taggedMember 2 "0" "10.0.0.9:37017" (Some 0%Z) ]})
      as -> by (vm_compute; reflexivity).
    intros [_ Heq]%lookup_singleton_Some. discriminate Heq.
  - assert (extra twinInfo = []) as -> by reflexivity. apply not_elem_of_nil.
Qed.

(** C9, as amended: a status is recorded under a machine id only when some
    input member carries that id as its machine-id tag and some status has
    that member's id, whether or not the machine is known; restricted to the
    known machines, the domain of the statuses is within that of the
    recognised map. *)
Theorem status_recorded_for_tagged ms sts mems port space info :
  newPeerGroupInfo ms sts mems port space = (Some info, None) →
  ∀ id, is_Some (statuses info !! id) →
    (∃ m s, m ∈ mems ∧ Tags m !! jujuMachineKey = Some id ∧ s ∈ sts ∧ sts_Id s = Id m) ∧
    (is_Some (ms !! id) → is_Some (recognised info !! id)).
Proof.
  intros Hnew id Hid. split.
  - apply newPeerGroupInfo_Some in Hnew as [_ ->].
    apply assemble_statuses in Hid as [Hid|?]; [|done].
    simpl in Hid. rewrite lookup_empty in Hid. by destruct Hid.
  - intros Hms. pose proof (newPeerGroupInfo_ok _ _ _ _ _ _ Hnew) as Hok.
    apply Hok; [done|].
    apply newPeerGroupInfo_Some in Hnew as [_ ->]. by rewrite assemble_machines.
Qed.

Lemma status_recorded_for_tagged_witness :
  newPeerGroupInfo steadyMachines steadyStatuses steadyMembers 37017 "" = (Some steadyInfo, None) ∧
  is_Some (statuses steadyInfo !! "1") ∧
  (∃ m s, m ∈ steadyMembers ∧ Tags m !! jujuMachineKey = Some "1" ∧
          s ∈ steadyStatuses ∧ sts_Id s = Id m) ∧
  (is_Some (steadyMachines !! "1") → is_Some (recognised steadyInfo !! "1")).
Proof.
  assert (newPeerGroupInfo steadyMachines steadyStatuses steadyMembers 37017 ""
          = (Some steadyInfo, None)) as H1 by reflexivity.
  assert (is_Some (statuses steadyInfo !! "1")) as H2 by (vm_compute; eauto).
  split; [exact H1|]. split; [exact H2|].
  exact (status_recorded_for_tagged steadyMachines steadyStatuses steadyMembers 37017 ""
           steadyInfo H1 "1" H2).
Defined.

(** C9 as stated fails: a member tagged with an unknown machine is extra, and
    still its status is recorded under that machine id. *)
Lemma stray_status_recorded :
  newPeerGroupInfo twinMachines strayStatuses strayMembers 37017 "" = (Some strayInfo, None) ∧
  is_Some (statuses strayInfo !! "5") ∧
  recognised strayInfo !! "5" = None ∧
  ¬ (dom (statuses strayInfo) ⊆ dom (recognised strayInfo)).
Proof.
  split; [reflexivity|]. split; [vm_compute; eauto|]. split; [reflexivity|].
  intros Hsub. specialize (Hsub "5").
  rewrite !elem_of_dom in Hsub.
  assert (is_Some (recognised strayInfo !! "5")) as [? Hx] by (apply Hsub; vm_compute; eauto).
  vm_compute in Hx. discriminate Hx.
Qed.

(** ** The two error checks *)

Lemma checkExtraMembers_loop_Some ex e :
  checkExtraMembers_loop ex = Some e →
  ∃ m, e = ErrExtraVotingMember m ∧ m ∈ ex ∧ isVotingMember m = true.
Proof.
  induction ex as [|m ex IH]; simpl; [done|].
  destruct (isVotingMember m) eqn:Hv.
  - intros [= <-]. exists m. split; [done|]. split; [apply list_elem_of_here|done].
  - intros (m' & -> & ? & ?)%IH. exists m'. split; [done|].
    split; [by apply list_elem_of_further|done].
Qed.

Lemma checkExtraMembers_loop_None ex :
  checkExtraMembers_loop ex = None ↔ ∀ m, m ∈ ex → isVotingMember m = false.
Proof.
  induction ex as [|m ex IH]; simpl.
  - split; [|done]. intros _ m Hm. by apply elem_of_nil in Hm.
  - destruct (isVotingMember m) eqn:Hv.
    + split; [done|]. intros Hall. rewrite Hall in Hv; [done|apply list_elem_of_here].
    + rewrite IH. split.
      * intros Hall m' [->|?]%elem_of_cons; auto.
      * intros Hall m' ?. apply Hall. by apply list_elem_of_further.
Qed.

Lemma checkExtraMembers_frame p ex :
  let q := (checkExtraMembers p ex).1 in
  (∀ b, bucketList b q = bucketList b p) ∧ machineVoting q = machineVoting p ∧
  members q = members p.
Proof.
  unfold checkExtraMembers. destruct (checkExtraMembers_loop ex); simpl; [done|].
  case_decide; simpl; repeat split; by intros [].
Qed.

Lemma getMongoAddresses_frame p info :
  let r := getMongoAddresses p info in
  (∀ b, bucketList b r.1 = bucketList b p) ∧ machineVoting r.1 = machineVoting p ∧
  members r.1 = members p ∧ isChanged r.1 = isChanged p ∧
  (∀ e, r.2 = Some e → ∃ msg, e = ErrNoUsableAddress msg).
Proof.
  unfold getMongoAddresses.
  apply (map_fold_weak_ind (λ (r : peerGroupChanges * option error) _,
    (∀ b, bucketList b r.1 = bucketList b p) ∧ machineVoting r.1 = machineVoting p ∧
    members r.1 = members p ∧ isChanged r.1 = isChanged p ∧
    (∀ e, r.2 = Some e → ∃ msg, e = ErrNoUsableAddress msg))).
  - simpl. repeat split; try done; by intros [].
  - intros id m ms [q err] _ (Hb & Hv & Hm & Hc & He). simpl in *.
    destruct err as [e|]; simpl; [done|].
    destruct (SelectMongoAddress m (mongoPort info) (haSpace info)) as [a [msg|]]; simpl;
      (split; [intros b; rewrite <-(Hb b); by destruct b|]); repeat split; try done.
    intros e [= <-]. by exists msg.
Qed.

(** C3: the reconciler fails with the extra-voting-member error exactly when
    some member of the extra list is voting (votes nil or positive), and it
    then returns a nil members map and a nil voting map. *)
Theorem extra_voting_member_rejected info :
  ((∃ mems voting m,
      desiredPeerGroup info = Some (mems, voting, Some (ErrExtraVotingMember m))) ↔
   (∃ m, m ∈ extra info ∧ (Votes m = None ∨ ∃ v, Votes m = Some v ∧ (0 < v)%Z))) ∧
  (∀ mems voting m,
      desiredPeerGroup info = Some (mems, voting, Some (ErrExtraVotingMember m)) →
      mems = None ∧ voting = None ∧ m ∈ extra info).
Proof.
  assert (∀ m, isVotingMember m = true ↔
               Votes m = None ∨ ∃ v, Votes m = Some v ∧ (0 < v)%Z) as Hvote.
  { intros m. rewrite isVotingMember_spec. destruct (Votes m) as [v|].
    - rewrite bool_decide_eq_true. naive_solver.
    - naive_solver. }
  assert (∀ mems voting m,
      desiredPeerGroup info = Some (mems, voting, Some (ErrExtraVotingMember m)) →
      mems = None ∧ voting = None ∧ m ∈ extra info ∧ isVotingMember m = true) as Herr.
  { intros mems voting m. unfold desiredPeerGroup, checkExtraMembers.
    destruct (checkExtraMembers_loop (extra info)) as [e|] eqn:Hloop.
    - intros [= <- <- ->].
      apply checkExtraMembers_loop_Some in Hloop as (m' & [= <-] & ? & ?). done.
    - match goal with |- context [getMongoAddresses ?q info] =>
        pose proof (getMongoAddresses_frame q info) as (_ & _ & _ & _ & Haddr);
        destruct (getMongoAddresses q info) as [q' [e|]] end.
      + intros [= <- <- ->]. destruct (Haddr _ eq_refl) as [msg [=]].
      + destruct (adjustVotes _) as [q''|]; simpl; [|done].
        destruct (isChanged _); intros [=]. }
  split; [split|].
  - intros (mems & voting & m & (_ & _ & ? & ?)%Herr). exists m. by rewrite <-Hvote.
  - intros (m & Hm & Hv%Hvote).
    destruct (checkExtraMembers_loop (extra info)) as [e|] eqn:Hloop.
    + apply checkExtraMembers_loop_Some in Hloop as Hm'. destruct Hm' as (m' & -> & _).
      exists None, None, m'. unfold desiredPeerGroup, checkExtraMembers. by rewrite Hloop.
    + rewrite checkExtraMembers_loop_None in Hloop. rewrite Hloop in Hv; done.
  - intros mems voting m (? & ? & ? & _)%Herr. done.
Qed.

(** ** The member synthesiser *)

Lemma wrap64_id z : (minInt64 ≤ z ≤ maxInt64)%Z → wrap64 z = z.
Proof.
  unfold wrap64, minInt64, maxInt64. intros Hz.
  rewrite Z.mod_small; lia.
Qed.

Lemma createMember_eq p z id :
  (minInt64 ≤ z + 1 ≤ maxInt64)%Z →
  createMember (p, z) id =
    (set_members p (<[id := newNonVotingMember id (z + 1)]> (members p)), (z + 1)%Z).
Proof. intros Hz. unfold createMember. simpl. by rewrite wrap64_id. Qed.

Lemma createMember_fold l : ∀ p z,
  (minInt64 ≤ z + 1)%Z → (z + Z.of_nat (length l) ≤ maxInt64)%Z → NoDup l →
  let r := foldl createMember (p, z) l in
  r.2 = (z + Z.of_nat (length l))%Z ∧
  (∀ b, bucketList b r.1 = bucketList b p) ∧
  machineVoting r.1 = machineVoting p ∧ isChanged r.1 = isChanged p ∧
  addrs r.1 = addrs p ∧
  (∀ id, id ∉ l → members r.1 !! id = members p !! id) ∧
  (∀ k id, l !! k = Some id →
     ∃ m, members r.1 !! id = Some m ∧ Id m = (z + 1 + Z.of_nat k)%Z ∧
          isVotingMember m = false ∧ Tags m = {[ jujuMachineKey := id ]}).
Proof.
  induction l as [|a l IH]; intros p z Hlo Hhi Hnd.
  - simpl. split; [lia|]. repeat split; done.
  - apply NoDup_cons in Hnd as [Ha Hnd]. simpl length in Hhi.
    change (foldl createMember (p, z) (a :: l))
      with (foldl createMember (createMember (p, z) a) l).
    rewrite createMember_eq by lia.
    set (q := set_members p (<[a := newNonVotingMember a (z + 1)]> (members p))).
    destruct (IH q (z + 1)%Z) as (Hz & Hb & Hv & Hc & Had & Hout & Hin); [lia|lia|done|].
    intros r. subst r. split; [simpl length; lia|].
    split; [intros b; rewrite Hb; by destruct b|].
    split; [by rewrite Hv|]. split; [by rewrite Hc|]. split; [by rewrite Had|]. split.
    + intros id [Hne Hid]%not_elem_of_cons. rewrite Hout by done.
      subst q. simpl. by rewrite lookup_insert_ne.
    + intros [|k] id Hk; simpl in Hk.
      * injection Hk as ->. rewrite Hout by done. subst q. simpl.
        rewrite lookup_insert_eq.
        eexists. split; [done|]. simpl. split; [lia|done].
      * destruct (Hin k id Hk) as (m & Hm & Hid & Hrest). exists m.
        split; [done|]. split; [lia|done].
Qed.

Lemma keepNonVoting_fold (P : string → Prop) `{!∀ id, Decision (P id)} l : ∀ acc,
  NoDup l →
  (∀ id, id ∈ l → members acc.1 !! id = None ↔ P id) →
  foldl (λ acc id,
      match members acc.1 !! id with
      | Some _ => acc
      | None => createMember acc id
      end) acc l
  = foldl createMember acc (filter P l).
Proof.
  induction l as [|a l IH]; intros acc Hnd HP; simpl; [done|].
  apply NoDup_cons in Hnd as [Ha Hnd]. rewrite filter_cons.
  pose proof (HP a (list_elem_of_here _ _)) as HPa.
  destruct (members acc.1 !! a) as [m|] eqn:Hacc.
  - rewrite decide_False by (intros HPa'; apply HPa in HPa'; done).
    apply IH; [done|]. intros id Hid. apply HP. by apply list_elem_of_further.
  - rewrite decide_True by (by apply HPa). simpl.
    apply IH; [done|]. intros id Hid. unfold createMember; simpl.
    rewrite lookup_insert_ne by (intros ->; done).
    apply HP. by apply list_elem_of_further.
Qed.

Lemma createNonVotingMember_as_fold p z :
  NoDup (toKeepNonVoting p) →
  createNonVotingMember p z = foldl createMember (p, z) (createdIds p).
Proof.
  intros Hnd. unfold createNonVotingMember, createdIds. rewrite foldl_app.
  apply keepNonVoting_fold; [done|]. intros id _. clear Hnd.
  assert (∀ l acc, members (foldl createMember acc l).1 !! id = None ↔
                   members acc.1 !! id = None ∧ id ∉ l) as Hgen; [|apply (Hgen _ (p, z))].
  clear. intros l. induction l as [|a l IH]; intros acc; simpl.
  - split; [|tauto]. intros ?. split; [done|apply not_elem_of_nil].
  - rewrite IH, not_elem_of_cons. unfold createMember; simpl.
    destruct (decide (a = id)) as [->|Hne].
    + rewrite lookup_insert_eq. naive_solver.
    + rewrite lookup_insert_ne by done. naive_solver.
Qed.

Lemma createMember_fold_members l : ∀ acc,
  let r := foldl createMember acc l in
  (∀ b, bucketList b r.1 = bucketList b acc.1) ∧
  machineVoting r.1 = machineVoting acc.1 ∧ isChanged r.1 = isChanged acc.1 ∧
  addrs r.1 = addrs acc.1 ∧
  (∀ id, id ∉ l → members r.1 !! id = members acc.1 !! id) ∧
  (∀ id, id ∈ l → ∃ m, members r.1 !! id = Some m ∧ isVotingMember m = false).
Proof.
  induction l as [|a l IH]; intros acc.
  - simpl. repeat split; try done. intros id Hid. by apply elem_of_nil in Hid.
  - change (foldl createMember acc (a :: l))
      with (foldl createMember (createMember acc a) l).
    destruct (IH (createMember acc a)) as (Hb & Hv & Hc & Had & Hout & Hin).
    intros r. subst r. split; [intros b; rewrite Hb; by destruct b|].
    split; [by rewrite Hv|]. split; [by rewrite Hc|]. split; [by rewrite Had|]. split.
    + intros id [Hne Hid]%not_elem_of_cons. rewrite Hout by done.
      unfold createMember. simpl. by rewrite lookup_insert_ne.
    + intros id Hid. destruct (decide (id ∈ l)) as [Hl|Hl]; [by apply Hin|].
      apply elem_of_cons in Hid as [->|?]; [|done].
      rewrite Hout by done. unfold createMember. simpl. rewrite lookup_insert_eq.
      by eexists.
Qed.

(** ** Counting lemmas *)






(** ** The shape of the adjuster's result *)

Lemma table_cases w v r e :
  (table w v r e = KeepVoting ↔ w = true ∧ v = true) ∧
  (table w v r e = RemoveVote ↔ w = false ∧ v = true) ∧
  (table w v r e = AddVote ↔ w = true ∧ v = false ∧ r = true) ∧
  (table w v r e = KeepCreateNonVotingMember ↔
     w = true ∧ v = false ∧ r = false ∧ e = false) ∧
  (table w v r e = KeepNonVoting → v = false).
Proof. destruct w, v, r, e; simpl; repeat split; naive_solver. Qed.

Lemma review_shape p info :
  let q := reviewPeerGroupChanges p info in
  members q = members p ∧ toKeepNonVoting q = toKeepNonVoting p ∧
  toKeepCreateNonVotingMember q = toKeepCreateNonVotingMember p ∧
  machineVoting q = machineVoting p ∧ addrs q = addrs p ∧ isChanged q = isChanged p ∧
  (∃ rest, toAddVote p = toAddVote q ++ rest) ∧
  (∀ id, id ∈ toRemoveVote q →
     id ∈ toRemoveVote p ∨ (id ∈ toKeepVoting p ∧ isPrimaryMember info id = false)) ∧
  (NoDup (toRemoveVote p ++ toKeepVoting p) → NoDup (toRemoveVote q)).
Proof.
  unfold reviewPeerGroupChanges.
  case_decide as Hodd; [|case_decide as Hadd; [|case_decide as Hkept]]; simpl.
  - repeat split; try done; [exists []; by rewrite app_nil_r|auto|].
    by intros [? _]%NoDup_app.
  - repeat split; try done; [|auto|by intros [? _]%NoDup_app].
    exists (drop (length (toAddVote p) - 1) (toAddVote p)). by rewrite take_drop.
  - repeat split; try done; [exists []; by rewrite app_nil_r|..].
    + intros id [_ ?]%list_elem_of_filter. by left.
    + intros [? _]%NoDup_app. by apply NoDup_filter.
  - destruct (firstNonPrimary info (toKeepVoting p) 0) as [[j x]|] eqn:Hf; simpl.
    + apply firstNonPrimary_Some in Hf as (l1 & l2 & Hk & _ & Hx & _).
      repeat split; try done; [exists []; by rewrite app_nil_r|..].
      * intros id [?|Hid%list_elem_of_singleton]%elem_of_app; [by left|right]. subst id.
        split; [|done]. rewrite Hk. apply elem_of_app. right. apply list_elem_of_here.
      * rewrite Hk. intros (Hr & Hdisj & Hkk)%NoDup_app.
        apply NoDup_app. split; [done|]. split; [|apply NoDup_singleton].
        intros y Hy Hyx%list_elem_of_singleton. subst y. apply (Hdisj _ Hy).
        apply elem_of_app. right. apply list_elem_of_here.
    + repeat split; try done; [exists []; by rewrite app_nil_r|auto|].
      by intros [? _]%NoDup_app.
Qed.

Section pipeline.
Context (info : peerGroupInfo) (Hok : snapshot_ok info).
Context (p0 : peerGroupChanges) (Hnil : ∀ b, bucketList b p0 = []).

Local Abbreviation p1 :=
  (possiblePeerGroupChanges (set_members p0 (initNewReplicaSet info)) info).
Local Abbreviation p2 := (reviewPeerGroupChanges p1 info).

Lemma elem_of_classified b id :
  id ∈ bucketList b p1 ↔
  ∃ m, machines info !! id = Some m ∧
       b = table (WantsVote m) (votesNow (recognised info) id) (readyNow info id)
             (bool_decide (is_Some (recognised info !! id))).
Proof.
  rewrite elem_of_possible by (rewrite <-(Hnil b); by destruct b).
  unfold tableBucket. simpl. unfold initNewReplicaSet.
  destruct (machines info !! id) as [m|]; simpl; naive_solver.
Qed.

Lemma NoDup_classified b : NoDup (bucketList b p1).
Proof. apply NoDup_possible. rewrite <-(Hnil b). by destruct b. Qed.

Lemma classified_disjoint b1 b2 id :
  id ∈ bucketList b1 p1 → id ∈ bucketList b2 p1 → b1 = b2.
Proof.
  rewrite !elem_of_classified. intros (m & Hm & ->) (m' & Hm' & ->). congruence.
Qed.

Lemma classified_members : members p1 = recognised info.
Proof. by rewrite possible_members. Qed.

Lemma votesNow_classified id :
  votesNow (recognised info) id = true ↔ id ∈ toKeepVoting p1 ++ toRemoveVote p1.
Proof.
  rewrite elem_of_app.
  rewrite (elem_of_classified KeepVoting), (elem_of_classified RemoveVote). split.
  - intros Hv.
    assert (is_Some (machines info !! id)) as [m Hm].
    { apply Hok. apply votesNow_true in Hv as (mem & -> & _). by eexists. }
    rewrite Hv. destruct (WantsVote m) eqn:Hw; [left|right]; exists m; by rewrite Hw.
  - intros [(m & _ & Hb)|(m & _ & Hb)]; symmetry in Hb;
      apply table_cases in Hb; tauto.
Qed.



Lemma reviewed_remove_voting id :
  id ∈ toRemoveVote p2 → votesNow (recognised info) id = true.
Proof.
  intros Hid. apply votesNow_classified, elem_of_app.
  destruct (review_shape p1 info) as (_ & _ & _ & _ & _ & _ & _ & Hr & _).
  destruct (Hr id Hid) as [?|[? _]]; auto.
Qed.


Lemma reviewed_add id :
  id ∈ toAddVote p2 →
  votesNow (recognised info) id = false ∧ is_Some (recognised info !! id).
Proof.
  intros Hid.
  destruct (review_shape p1 info) as (_ & _ & _ & _ & _ & _ & [rest Hadd] & _).
  assert (id ∈ toAddVote p1) as Hid1.
  { rewrite Hadd. apply elem_of_app. by left. }
  apply (elem_of_classified AddVote) in Hid1 as (m & Hm & Hb).
  symmetry in Hb. apply table_cases in Hb as (_ & Hv & Hr). split; [done|].
  apply Hok; [|by eexists]. unfold readyNow in Hr.
  destruct (statuses info !! id); [by eexists|done].
Qed.


Lemma reviewed_create id :
  id ∈ toKeepCreateNonVotingMember p2 → recognised info !! id = None.
Proof.
  destruct (review_shape p1 info) as (_ & _ & -> & _).
  intros (m & Hm & Hb)%(elem_of_classified KeepCreateNonVotingMember).
  symmetry in Hb. apply table_cases in Hb as (_ & _ & _ & He).
  apply bool_decide_eq_false in He. by apply eq_None_not_Some.
Qed.

Lemma NoDup_reviewed_keep b :
  b = KeepNonVoting ∨ b = KeepCreateNonVotingMember → NoDup (bucketList b p2).
Proof.
  destruct (review_shape p1 info) as (_ & Hn & Hc & _).
  intros [-> | ->]; simpl; [rewrite Hn|rewrite Hc].
  - apply (NoDup_classified KeepNonVoting).
  - apply (NoDup_classified KeepCreateNonVotingMember).
Qed.

Lemma reviewed_members : members p2 = recognised info.
Proof.
  destruct (review_shape p1 info) as (-> & _). apply classified_members.
Qed.

End pipeline.

(** ** Recording and adjusting the votes *)

Lemma getMachinesVoting_lookup p id :
  machineVoting (getMachinesVoting p) !! id =
    match members p !! id with
    | Some m => Some (isVotingMember m)
    | None => machineVoting p !! id
    end.
Proof.
  unfold getMachinesVoting. simpl.
  apply (map_fold_weak_ind (λ (mv : gmap string bool) (ms : gmap string Member),
    mv !! id = match ms !! id with
               | Some m => Some (isVotingMember m)
               | None => machineVoting p !! id
               end)).
  - by rewrite lookup_empty.
  - intros k m ms mv Hk IH. destruct (decide (k = id)) as [->|Hne].
    + by rewrite !lookup_insert_eq.
    + by rewrite !lookup_insert_ne.
Qed.

Lemma getMachinesVoting_frame p :
  members (getMachinesVoting p) = members p ∧
  isChanged (getMachinesVoting p) = isChanged p ∧
  ∀ b, bucketList b (getMachinesVoting p) = bucketList b p.
Proof. repeat split; by intros []. Qed.

Lemma setVoting_Some l voting : ∀ p,
  (∀ id, id ∈ l → is_Some (members p !! id)) →
  ∃ q, setVoting l voting p = Some q ∧
       (∀ b, bucketList b q = bucketList b p) ∧
       isChanged q = isChanged p ∧ addrs q = addrs p ∧
       (∀ id, is_Some (members q !! id) ↔ is_Some (members p !! id)) ∧
       (∀ id, machineVoting q !! id =
              if decide (id ∈ l) then Some voting else machineVoting p !! id).
Proof.
  induction l as [|a l IH]; intros p Hall; simpl.
  - exists p. repeat split; try done.
  - destruct (Hall a (list_elem_of_here _ _)) as [m Hm]. rewrite Hm.
    match goal with |- context [setVoting l voting ?p'] =>
      destruct (IH p') as (q & Hq & Hb & Hc & Had & Hdom & Hmv) end.
    { intros id Hid. simpl. rewrite lookup_insert_is_Some'. right.
      apply Hall. by apply list_elem_of_further. }
    exists q. split; [done|]. split; [intros b; rewrite Hb; by destruct b|].
    split; [done|]. split; [done|]. split.
    + intros id. rewrite Hdom. simpl. rewrite lookup_insert_is_Some'.
      split; [|auto]. intros [->|?]; [by eexists|done].
    + intros id. rewrite Hmv. simpl.
      destruct (decide (id ∈ l)) as [Hl|Hl].
      * rewrite decide_True; [done|by apply list_elem_of_further].
      * destruct (decide (a = id)) as [->|Hne].
        -- rewrite lookup_insert_eq. rewrite decide_True; [done|apply list_elem_of_here].
        -- rewrite lookup_insert_ne by done. rewrite decide_False; [done|].
           intros [?|?]%elem_of_cons; congruence.
Qed.

Lemma setVoting_None l voting : ∀ p,
  setVoting l voting p = None → ∃ id, id ∈ l ∧ ¬ ∀ id', id' ∈ l → is_Some (members p !! id').
Proof.
  intros p Hnone. destruct l as [|a l]; [done|]. exists a.
  split; [apply list_elem_of_here|]. intros Hall.
  destruct (setVoting_Some (a :: l) voting p Hall) as (q & Hq & _). congruence.
Qed.

Lemma adjustVotes_Some p :
  (∀ id, id ∈ toAddVote p ++ toRemoveVote p ++ toKeepCreateNonVotingMember p →
         is_Some (members p !! id)) →
  ∃ q, adjustVotes p = Some q ∧
       (∀ b, bucketList b q = bucketList b p) ∧
       isChanged q =
         (bool_decide (0 < length (toAddVote p))
          || bool_decide (0 < length (toRemoveVote p))
          || bool_decide (0 < length (toKeepCreateNonVotingMember p))
          || isChanged p) ∧
       addrs q = addrs p ∧
       (∀ id, is_Some (members q !! id) ↔ is_Some (members p !! id)) ∧
       (∀ id, machineVoting q !! id =
              if decide (id ∈ toKeepCreateNonVotingMember p) then Some false
              else if decide (id ∈ toRemoveVote p) then Some false
              else if decide (id ∈ toAddVote p) then Some true
              else machineVoting p !! id).
Proof.
  intros Hall. unfold adjustVotes.
  set (pc := if bool_decide (0 < length (toAddVote p))
                || bool_decide (0 < length (toRemoveVote p))
                || bool_decide (0 < length (toKeepCreateNonVotingMember p))
             then set_isChanged p true else p).
  assert ((∀ b, bucketList b pc = bucketList b p) ∧ members pc = members p ∧
          machineVoting pc = machineVoting p ∧ addrs pc = addrs p ∧
          isChanged pc =
            (bool_decide (0 < length (toAddVote p))
             || bool_decide (0 < length (toRemoveVote p))
             || bool_decide (0 < length (toKeepCreateNonVotingMember p))
             || isChanged p)) as (Hb0 & Hm0 & Hv0 & Ha0 & Hc0).
  { subst pc. destruct (_ || _ || _) eqn:Hor; simpl; repeat split; try done; by intros []. }
  pose proof (Hb0 AddVote) as HA. pose proof (Hb0 RemoveVote) as HR.
  pose proof (Hb0 KeepCreateNonVotingMember) as HC. simpl in HA, HR, HC.
  destruct (setVoting_Some (toAddVote pc) true pc) as (q1 & Hq1 & Hb1 & Hc1 & Ha1 & Hd1 & Hv1).
  { intros id Hid. rewrite Hm0. apply Hall. rewrite <-HA. apply elem_of_app. by left. }
  rewrite Hq1. simpl.
  pose proof (Hb1 RemoveVote) as HR1. pose proof (Hb1 KeepCreateNonVotingMember) as HC1.
  simpl in HR1, HC1.
  destruct (setVoting_Some (toRemoveVote q1) false q1) as (q2 & Hq2 & Hb2 & Hc2 & Ha2 & Hd2 & Hv2).
  { intros id Hid. rewrite Hd1, Hm0. apply Hall.
    rewrite HR1, HR in Hid. rewrite !elem_of_app. auto. }
  rewrite Hq2. simpl.
  pose proof (Hb2 KeepCreateNonVotingMember) as HC2. simpl in HC2.
  destruct (setVoting_Some (toKeepCreateNonVotingMember q2) false q2)
    as (q3 & Hq3 & Hb3 & Hc3 & Ha3 & Hd3 & Hv3).
  { intros id Hid. rewrite Hd2, Hd1, Hm0. apply Hall.
    rewrite HC2, HC1, HC in Hid. rewrite !elem_of_app. auto. }
  exists q3. split; [done|]. split; [intros b; by rewrite Hb3, Hb2, Hb1|].
  split; [congruence|]. split; [congruence|]. split.
  - intros id. by rewrite Hd3, Hd2, Hd1, Hm0.
  - intros id. rewrite Hv3, Hv2, Hv1, Hv0.
    by rewrite HC2, HC1, HC, HR1, HR, HA.
Qed.

Lemma updateAddresses_frame p :
  let q := updateAddresses p in
  machineVoting q = machineVoting p ∧ (∀ b, bucketList b q = bucketList b p) ∧
  (isChanged p = true → isChanged q = true).
Proof.
  unfold updateAddresses.
  apply (map_fold_weak_ind (λ (q : peerGroupChanges) (_ : gmap string string),
    machineVoting q = machineVoting p ∧ (∀ b, bucketList b q = bucketList b p) ∧
    (isChanged p = true → isChanged q = true))).
  - done.
  - intros id addr _ q _ (Hv & Hb & Hc).
    case_decide; [done|]. destruct (members q !! id) as [m|]; [|done].
    case_decide; [|done]. simpl. split; [done|]. split; [|done].
    intros b. rewrite <-Hb. by destruct b.
Qed.

(** ** The proposal on which the votes are adjusted *)

Section proposal.
Context (info : peerGroupInfo) (Hok : snapshot_ok info).
Context (p0 : peerGroupChanges) (Hnil : ∀ b, bucketList b p0 = []).
Context (Hmv0 : machineVoting p0 = ∅).

Local Abbreviation p1 :=
  (possiblePeerGroupChanges (set_members p0 (initNewReplicaSet info)) info).
Local Abbreviation p2 := (reviewPeerGroupChanges p1 info).
Local Abbreviation p3 := (proposeChanges p0 info).1.

Lemma created_fresh id : id ∈ createdIds p2 → recognised info !! id = None.
Proof.
  unfold createdIds. rewrite elem_of_app, list_elem_of_filter.
  intros [Hc|[[Hm _] _]].
  - by apply (reviewed_create info p0 Hnil).
  - by rewrite (reviewed_members info p0) in Hm.
Qed.

Lemma proposed_facts :
  (∀ b, bucketList b p3 = bucketList b p2) ∧
  machineVoting p3 = ∅ ∧
  isChanged p3 = isChanged p0 ∧
  (∀ id, id ∉ createdIds p2 → members p3 !! id = recognised info !! id) ∧
  (∀ id, id ∈ createdIds p2 → ∃ m, members p3 !! id = Some m ∧ isVotingMember m = false).
Proof.
  unfold proposeChanges.
  rewrite createNonVotingMember_as_fold
    by (apply (NoDup_reviewed_keep info p0 Hnil KeepNonVoting); by left).
  destruct (createMember_fold_members (createdIds p2) (p2, maxMemberId info))
    as (Hb & Hv & Hc & _ & Hout & Hin).
  simpl in Hb, Hv, Hc, Hout, Hin.
  destruct (review_shape p1 info) as (_ & _ & _ & Hv2 & _ & Hc2 & _).
  destruct (classify_fold info (machineIds info) (set_members p0 (initNewReplicaSet info)))
    as (_ & Hc1 & _ & Hv1 & _).
  split; [done|]. split.
  { rewrite Hv, Hv2. unfold possiblePeerGroupChanges. by rewrite Hv1. }
  split.
  { rewrite Hc, Hc2. unfold possiblePeerGroupChanges. by rewrite Hc1. }
  split; [|done].
  intros id Hid. rewrite Hout by done. by rewrite (reviewed_members info p0).
Qed.

Lemma proposed_voting_member id m :
  members p3 !! id = Some m → isVotingMember m = true → recognised info !! id = Some m.
Proof.
  destruct proposed_facts as (_ & _ & _ & Hout & Hin).
  intros Hm Hv. destruct (decide (id ∈ createdIds p2)) as [Hc|Hc].
  - destruct (Hin id Hc) as (m' & Hm' & Hv'). congruence.
  - by rewrite <-Hout.
Qed.

(** Every id whose vote [adjustVotes] sets has a member in the proposal. *)
Lemma proposed_members_present id :
  id ∈ toAddVote p3 ++ toRemoveVote p3 ++ toKeepCreateNonVotingMember p3 →
  is_Some (members p3 !! id).
Proof.
  destruct proposed_facts as (Hb & _ & _ & Hout & Hin).
  rewrite (Hb AddVote : toAddVote p3 = _), (Hb RemoveVote : toRemoveVote p3 = _),
    (Hb KeepCreateNonVotingMember : toKeepCreateNonVotingMember p3 = _).
  assert (∀ id, is_Some (recognised info !! id) → is_Some (members p3 !! id)) as Hrec.
  { intros id' Hid'. rewrite Hout; [done|].
    intros Hc%created_fresh. rewrite Hc in Hid'. by destruct Hid'. }
  rewrite !elem_of_app. intros [Ha|[Hr|Hc]].
  - apply Hrec. by apply (reviewed_add info Hok p0 Hnil).
  - apply Hrec. apply (reviewed_remove_voting info Hok p0 Hnil) in Hr.
    apply votesNow_true in Hr as (m & -> & _). by eexists.
  - destruct (Hin id) as (m & -> & _); [|by eexists].
    unfold createdIds. apply elem_of_app. by left.
Qed.

Lemma adjusted_voting :
  ∃ p5, adjustVotes (getMachinesVoting p3) = Some p5 ∧
    isChanged p5 =
      (bool_decide (0 < length (toAddVote p2))
       || bool_decide (0 < length (toRemoveVote p2))
       || bool_decide (0 < length (toKeepCreateNonVotingMember p2))
       || isChanged p0) ∧
    ∀ id, machineVoting p5 !! id = Some true ↔
          id ∈ toAddVote p2 ∨
          (votesNow (recognised info) id = true ∧ id ∉ toRemoveVote p2).
Proof.
  destruct proposed_facts as (Hb & Hv & Hc & Hout & Hin).
  pose proof (Hb AddVote) as HA. pose proof (Hb RemoveVote) as HR.
  pose proof (Hb KeepCreateNonVotingMember) as HC. simpl in HA, HR, HC.
  destruct (adjustVotes_Some (getMachinesVoting p3))
    as (p5 & Hp5 & _ & Hc5 & _ & _ & Hmv).
  { intros id Hid. apply proposed_members_present, Hid. }
  exists p5. split; [done|]. split.
  { rewrite Hc5. simpl. by rewrite HA, HR, HC, Hc. }
  intros id. rewrite Hmv, getMachinesVoting_lookup, Hv, lookup_empty.
  change (toKeepCreateNonVotingMember (getMachinesVoting p3))
    with (toKeepCreateNonVotingMember p3).
  change (toRemoveVote (getMachinesVoting p3)) with (toRemoveVote p3).
  change (toAddVote (getMachinesVoting p3)) with (toAddVote p3).
  rewrite HA, HR, HC.
  destruct (decide (id ∈ toKeepCreateNonVotingMember p2)) as [Hcr|Hcr].
  { split; [done|]. apply (reviewed_create info p0 Hnil) in Hcr as Hnone.
    intros [Ha|[Hvn _]].
    - apply (reviewed_add info Hok p0 Hnil) in Ha as [_ [? ?]]. congruence.
    - apply votesNow_true in Hvn as (m & ? & _). congruence. }
  destruct (decide (id ∈ toRemoveVote p2)) as [Hrm|Hrm].
  { split; [done|]. intros [Ha|[_ ?]]; [|done].
    apply (reviewed_add info Hok p0 Hnil) in Ha as [Hf _].
    apply (reviewed_remove_voting info Hok p0 Hnil) in Hrm. congruence. }
  destruct (decide (id ∈ toAddVote p2)) as [Had|Had]; [by split; [left|]|].
  destruct (members p3 !! id) as [m|] eqn:Hm.
  - split.
    + intros [= Hvm]. right. split; [|done].
      apply votesNow_true. exists m. split; [|done].
      by apply proposed_voting_member.
    + intros [?|[Hvn _]]; [done|]. f_equal.
      apply votesNow_true in Hvn as (m' & Hm' & Hvm').
      assert (id ∉ createdIds p2) as Hnc.
      { intros Hcr'%created_fresh. congruence. }
      rewrite Hout in Hm by done. congruence.
  - split; [done|]. intros [?|[Hvn _]]; [done|].
    apply votesNow_true in Hvn as (m' & Hm' & Hvm').
    assert (id ∉ createdIds p2) as Hnc.
    { intros Hcr'%created_fresh. congruence. }
    rewrite Hout in Hm by done. congruence.
Qed.

End proposal.

(** ** The parity of the voters *)



Section parity.
Context (info : peerGroupInfo) (Hok : snapshot_ok info).
Context (p0 : peerGroupChanges) (Hnil : ∀ b, bucketList b p0 = []).

Local Abbreviation p1 :=
  (possiblePeerGroupChanges (set_members p0 (initNewReplicaSet info)) info).
Local Abbreviation p2 := (reviewPeerGroupChanges p1 info).




End parity.

(** ** The run of desiredPeerGroup *)

Lemma checkedChanges_fresh info :
  (∀ b, bucketList b (checkedChanges info) = []) ∧
  machineVoting (checkedChanges info) = ∅.
Proof.
  unfold checkedChanges.
  destruct (getMongoAddresses_frame (checkExtraMembers newChanges (extra info)).1 info)
    as (Hb & Hv & _).
  destruct (checkExtraMembers_frame newChanges (extra info)) as (Hb' & Hv' & _).
  split; [intros b; rewrite Hb, Hb'; by destruct b|]. by rewrite Hv, Hv'.
Qed.

Lemma checkedChanges_isChanged info :
  checkExtraMembers_loop (extra info) = None →
  isChanged (checkedChanges info) = bool_decide (0 < length (extra info)).
Proof.
  intros Hloop. unfold checkedChanges.
  destruct (getMongoAddresses_frame (checkExtraMembers newChanges (extra info)).1 info)
    as (_ & _ & _ & -> & _).
  unfold checkExtraMembers. rewrite Hloop. simpl.
  case_decide; [by rewrite bool_decide_eq_true_2|by rewrite bool_decide_eq_false_2].
Qed.

Lemma desiredPeerGroup_run info :
  snapshot_ok info →
  (∃ e, desiredPeerGroup info = Some (None, None, Some e)) ∨
  (∃ p5,
     checkExtraMembers_loop (extra info) = None ∧
     adjustVotes (getMachinesVoting (proposedChanges info).1) = Some p5 ∧
     desiredPeerGroup info =
       Some (if isChanged (updateAddresses p5)
             then Some (members (updateAddresses p5)) else None,
             Some (machineVoting p5), None)).
Proof.
  intros Hok.
  destruct (checkedChanges_fresh info) as [Hnil Hmv].
  destruct (adjusted_voting info Hok (checkedChanges info) Hnil Hmv) as (p5 & Hp5 & _).
  unfold desiredPeerGroup, proposedChanges, checkedChanges in *.
  unfold checkExtraMembers in *.
  destruct (checkExtraMembers_loop (extra info)) as [e|] eqn:Hloop; [left; by exists e|].
  simpl in *.
  destruct (getMongoAddresses _ info) as [q [e|]]; [left; by exists e|].
  right. exists p5. split; [done|]. split; [done|]. simpl in Hp5. rewrite Hp5. simpl.
  destruct (updateAddresses_frame p5) as (-> & _). by destruct (isChanged _).
Qed.



(** ** The classifier and the adjuster on a snapshot *)

(** C4: the classifier puts every known machine id in the bucket the table of
    the specification names for it and in no other one, once; no machine id
    is in two buckets, and only known machine ids are classified. *)
Theorem classifier_follows_table info :
  let q := classifiedChanges info in
  (∀ b, NoDup (bucketList b q)) ∧
  (∀ id m, machines info !! id = Some m →
     ∀ b, id ∈ bucketList b q ↔
          b = table (WantsVote m) (votesNow (recognised info) id) (readyNow info id)
                (bool_decide (is_Some (recognised info !! id)))) ∧
  (∀ id b1 b2, id ∈ bucketList b1 q → id ∈ bucketList b2 q → b1 = b2) ∧
  (∀ id b, id ∈ bucketList b q → is_Some (machines info !! id)).
Proof.
  destruct (checkedChanges_fresh info) as [Hnil _].
  intros q. split; [|split; [|split]].
  - intros b. apply (NoDup_classified info _ Hnil).
  - intros id m Hid b. unfold q, classifiedChanges.
    rewrite (elem_of_classified info _ Hnil). rewrite Hid. naive_solver.
  - intros id b1 b2. apply (classified_disjoint info _ Hnil).
  - intros id b (m & Hm & _)%(elem_of_classified info _ Hnil). by exists m.
Qed.

Lemma classifier_follows_table_witness :
  machines steadyInfo !! "1" = Some (tracker true "10.0.0.2:37017") ∧
  (∀ b, "1" ∈ bucketList b (classifiedChanges steadyInfo) ↔
        b = table (WantsVote (tracker true "10.0.0.2:37017"))
              (votesNow (recognised steadyInfo) "1") (readyNow steadyInfo "1")
              (bool_decide (is_Some (recognised steadyInfo !! "1")))).
Proof.
  assert (machines steadyInfo !! "1" = Some (tracker true "10.0.0.2:37017")) as H1
    by reflexivity.
  split; [exact H1|].
  exact (proj1 (proj2 (classifier_follows_table steadyInfo)) "1" _ H1).
Defined.

(** C5: when the projected voter count is even and the classifier found
    votes to add, the adjuster removes the last entry of toAddVote, which is
    the greatest of its machine ids in the order of the sort, and changes
    nothing else. *)
Theorem adjuster_trims_last_add info :
  let p := classifiedChanges info in
  Z.even (countVoters (members p) - Z.of_nat (length (toRemoveVote p))
          + Z.of_nat (length (toAddVote p))) = true →
  toAddVote p ≠ [] →
  ∃ init last,
    toAddVote p = init ++ [last] ∧
    Forall (λ id, string_le id last) init ∧
    reviewedChanges info = set_toAddVote p init.
Proof.
  destruct (checkedChanges_fresh info) as [Hnil _].
  intros p Heven Hne. unfold reviewedChanges. fold p.
  destruct (toAddVote p) as [|a l] eqn:Hadd using rev_ind; [done|]. clear IHl.
  exists l, a. split; [done|]. split.
  - assert (StronglySorted string_le (toAddVote p)) as Hs.
    { apply (possible_sorted info
        (set_members (checkedChanges info) (initNewReplicaSet info)) AddVote).
      apply (Hnil AddVote). }
    rewrite Hadd in Hs.
    apply Forall_forall. intros id Hid.
    eapply StronglySorted_app_1_elem_of; [exact Hs|done|apply list_elem_of_here].
  - apply (review_trim p info l a); [|done].
    rewrite Hadd. by apply even_rem_not_1.
Qed.

Lemma adjuster_trims_last_add_witness :
  Z.even (countVoters (members (classifiedChanges candidateInfo))
          - Z.of_nat (length (toRemoveVote (classifiedChanges candidateInfo)))
          + Z.of_nat (length (toAddVote (classifiedChanges candidateInfo)))) = true ∧
  toAddVote (classifiedChanges candidateInfo) ≠ [] ∧
  ∃ init last,
    toAddVote (classifiedChanges candidateInfo) = init ++ [last] ∧
    Forall (λ id, string_le id last) init ∧
    reviewedChanges candidateInfo = set_toAddVote (classifiedChanges candidateInfo) init.
Proof.
  assert (Z.even (countVoters (members (classifiedChanges candidateInfo))
          - Z.of_nat (length (toRemoveVote (classifiedChanges candidateInfo)))
          + Z.of_nat (length (toAddVote (classifiedChanges candidateInfo)))) = true) as H1
    by (vm_compute; reflexivity).
  assert (toAddVote (classifiedChanges candidateInfo) ≠ []) as H2
    by (vm_compute; discriminate).
  split; [exact H1|]. split; [exact H2|].
  exact (adjuster_trims_last_add candidateInfo H1 H2).
Defined.

(** C2, as amended: the adjuster never adds the primary to toRemoveVote.  A
    machine id whose status is Primary is in the final toRemoveVote only when
    the classifier put it there, that is when its machine does not want the
    vote while its member votes; this holds whatever the kept voter count. *)
Theorem primary_removed_only_by_classifier info id :
  isPrimaryMember info id = true →
  id ∈ toRemoveVote (reviewedChanges info) →
  id ∈ toRemoveVote (classifiedChanges info) ∧
  ∃ m, machines info !! id = Some m ∧ WantsVote m = false ∧
       votesNow (recognised info) id = true.
Proof.
  destruct (checkedChanges_fresh info) as [Hnil _].
  intros Hprim Hid.
  destruct (review_shape (classifiedChanges info) info) as (_ & _ & _ & _ & _ & _ & _ & Hr & _).
  destruct (Hr id Hid) as [Hcl|[_ ?]]; [|congruence].
  split; [done|].
  apply (elem_of_classified info _ Hnil RemoveVote) in Hcl as (m & Hm & Hb).
  symmetry in Hb. apply table_cases in Hb as [Hw Hv]. by exists m.
Qed.

Lemma primary_removed_only_by_classifier_witness :
  isPrimaryMember retireInfo "0" = true ∧
  "0" ∈ toRemoveVote (reviewedChanges retireInfo) ∧
  "0" ∈ toRemoveVote (classifiedChanges retireInfo) ∧
  ∃ m, machines retireInfo !! "0" = Some m ∧ WantsVote m = false ∧
       votesNow (recognised retireInfo) "0" = true.
Proof.
  assert (isPrimaryMember retireInfo "0" = true) as H1 by reflexivity.
  assert ("0" ∈ toRemoveVote (reviewedChanges retireInfo)) as H2.
  { assert (toRemoveVote (reviewedChanges retireInfo) = ["0"]) as ->
      by (vm_compute; reflexivity).
    apply list_elem_of_here. }
  split; [exact H1|]. split; [exact H2|].
  exact (primary_removed_only_by_classifier retireInfo "0" H1 H2).
Defined.

(** C2 as stated fails: with one voter kept, the primary whose machine no
    longer wants the vote is in the final toRemoveVote and loses its vote. *)
Lemma retiring_primary_is_demoted :
  newPeerGroupInfo retireMachines retireStatuses retireMembers 37017 ""
    = (Some retireInfo, None) ∧
  (0 < countVoters (members (classifiedChanges retireInfo))
       - Z.of_nat (length (toRemoveVote (classifiedChanges retireInfo))))%Z ∧
  isPrimaryMember retireInfo "0" = true ∧
  "0" ∈ toRemoveVote (reviewedChanges retireInfo) ∧
  ∃ proposal voting,
    desiredPeerGroup retireInfo = Some (Some proposal, Some voting, None) ∧
    voting !! "0" = Some false.
Proof.
  split; [reflexivity|]. split; [by vm_compute|]. split; [reflexivity|]. split.
  - assert (toRemoveVote (reviewedChanges retireInfo) = ["0"]) as ->
      by (vm_compute; reflexivity).
    apply list_elem_of_here.
  - destruct (desiredPeerGroup retireInfo) as [[[[proposal|] [voting|]] [e|]]|] eqn:Hrun;
      try (vm_compute in Hrun; discriminate Hrun).
    exists proposal, voting. split; [done|].
    vm_compute in Hrun. injection Hrun as _ <-. reflexivity.
Qed.

(** ** The voters of the result *)




(** ** The signal of a change *)

(** C6 at the failing input: machine "1" wants no vote, has no member and no
    address yet.  The synthesiser creates its member, with id 2, in the
    proposal, and desiredPeerGroup still returns a nil members map. *)
Theorem created_member_not_signalled :
  newPeerGroupInfo idleMachines idleStatuses idleMembers 37017 "" = (Some idleInfo, None) ∧
  extra idleInfo = [] ∧
  toAddVote (reviewedChanges idleInfo) = [] ∧
  toRemoveVote (reviewedChanges idleInfo) = [] ∧
  recognised idleInfo !! "1" = None ∧
  (∃ m, members (proposedChanges idleInfo).1 !! "1" = Some m ∧ Id m = 2%Z) ∧
  ∃ voting, desiredPeerGroup idleInfo = Some (None, Some voting, None) ∧
            voting !! "1" = Some false.
Proof.
  split; [reflexivity|]. split; [reflexivity|].
  split; [by vm_compute|]. split; [by vm_compute|]. split; [reflexivity|]. split.
  - destruct (members (proposedChanges idleInfo).1 !! "1") as [m|] eqn:Hm;
      [|vm_compute in Hm; discriminate Hm].
    exists m. split; [done|]. vm_compute in Hm. injection Hm as <-. reflexivity.
  - destruct (desiredPeerGroup idleInfo) as [[[[proposal|] [voting|]] [e|]]|] eqn:Hrun;
      try (vm_compute in Hrun; discriminate Hrun).
    exists voting. split; [done|].
    vm_compute in Hrun. injection Hrun as <-. reflexivity.
Qed.

(** The exact condition under which the address update signals a change. *)
Lemma updateAddresses_changed p :
  isChanged (updateAddresses p) = true ↔
  isChanged p = true ∨
  ∃ id addr m, addrs p !! id = Some addr ∧ addr ≠ "" ∧
               members p !! id = Some m ∧ Address m ≠ addr.
Proof.
  unfold updateAddresses.
  apply (map_fold_weak_ind (λ (q : peerGroupChanges) (am : gmap string string),
    (∀ id, am !! id = None → members q !! id = members p !! id) ∧
    (isChanged q = true ↔
     isChanged p = true ∨
     ∃ id addr m, am !! id = Some addr ∧ addr ≠ "" ∧
                  members p !! id = Some m ∧ Address m ≠ addr))).
  - split; [done|]. split; [by left|].
    intros [?|(id & addr & m & Hid & _)]; [done|]. by rewrite lookup_empty in Hid.
  - intros i addr am q Hi [Hmem Hch].
    assert (¬ (addr ≠ "" ∧ ∃ m, members p !! i = Some m ∧ Address m ≠ addr) →
            (∀ id, <[i:=addr]> am !! id = None → members q !! id = members p !! id) ∧
            (isChanged q = true ↔
             isChanged p = true ∨
             ∃ id a m, <[i:=addr]> am !! id = Some a ∧ a ≠ "" ∧
                       members p !! id = Some m ∧ Address m ≠ a)) as Hskip.
    { intros Hno. split.
      - intros id [Hid _]%lookup_insert_None. by apply Hmem.
      - rewrite Hch. split.
        + intros [?|(id & a & m & Hid & Hrest)]; [by left|right].
          exists id, a, m. split; [|done]. rewrite lookup_insert_ne; [done|congruence].
        + intros [?|(id & a & m & Hid & Ha & Hm & Hne)]; [by left|right].
          apply lookup_insert_Some in Hid as [[-> ->]|[_ Hid]].
          * destruct Hno. split; [done|]. by exists m.
          * by exists id, a, m. }
    case_decide as Hempty; [apply Hskip; tauto|].
    rewrite <-(Hmem i Hi) in Hskip.
    destruct (members q !! i) as [m|] eqn:Hm; [|apply Hskip; by intros [_ (? & ? & _)]].
    case_decide as Hne; [|apply Hskip; intros [_ (m' & [= <-] & Hne')]; by destruct Hne].
    simpl. split.
    + intros id [Hid Hneq]%lookup_insert_None.
      rewrite lookup_insert_ne by done. by apply Hmem.
    + split; [|done]. intros _. right. exists i, addr, m.
      rewrite lookup_insert_eq, <-(Hmem i Hi). auto.
Qed.

(** What the code takes for a change: desiredPeerGroup returns a nil members
    map exactly when there is no extra member, the final toAddVote,
    toRemoveVote and toKeepCreateNonVotingMember are empty, and the selected
    address of no member differs from its address.  A member created for a
    machine id of toKeepNonVoting is not in the condition. *)
Lemma nil_members_iff info proposal voting :
  snapshot_ok info →
  desiredPeerGroup info = Some (proposal, Some voting, None) →
  ∃ p5, adjustVotes (getMachinesVoting (proposedChanges info).1) = Some p5 ∧
    (proposal = None ↔
     extra info = [] ∧
     toAddVote (reviewedChanges info) = [] ∧
     toRemoveVote (reviewedChanges info) = [] ∧
     toKeepCreateNonVotingMember (reviewedChanges info) = [] ∧
     ∀ id addr m, addrs p5 !! id = Some addr → members p5 !! id = Some m →
                  addr = "" ∨ Address m = addr).
Proof.
  intros Hok Hrun.
  destruct (checkedChanges_fresh info) as [Hnil Hmv].
  destruct (desiredPeerGroup_run info Hok) as [[e He]|(p5 & Hloop & Hp5 & Hrun')]; [congruence|].
  exists p5. split; [done|].
  destruct (adjusted_voting info Hok _ Hnil Hmv) as (p5' & Hp5' & Hch & _).
  unfold proposedChanges in Hp5. rewrite Hp5 in Hp5'. injection Hp5' as <-.
  rewrite (checkedChanges_isChanged info Hloop) in Hch.
  fold (classifiedChanges info) in Hch. fold (reviewedChanges info) in Hch.
  assert (proposal = None ↔ ¬ isChanged (updateAddresses p5) = true) as ->.
  { rewrite Hrun in Hrun'. destruct (isChanged (updateAddresses p5));
      injection Hrun' as -> _; split; done. }
  rewrite updateAddresses_changed, Hch.
  assert (∀ A (l : list A), bool_decide (0 < length l) = true ↔ l ≠ []) as Hlen.
  { intros A l. rewrite bool_decide_eq_true. destruct l; simpl; [|split; [done|lia]].
    split; [lia|done]. }
  rewrite !orb_true_iff, !Hlen. split.
  - intros Hno. repeat split.
    + destruct (extra info); [done|]. destruct Hno. left. by right.
    + destruct (toAddVote _); [done|]. destruct Hno. left. by left; left; left.
    + destruct (toRemoveVote _); [done|]. destruct Hno. left. by left; left; right.
    + destruct (toKeepCreateNonVotingMember _); [done|]. destruct Hno. left. by left; right.
    + intros id addr m Hid Hm. destruct (decide (addr = "")) as [?|Hne]; [by left|right].
      destruct (decide (Address m = addr)) as [?|Hne']; [done|].
      destruct Hno. right. by exists id, addr, m.
  - intros (-> & -> & -> & -> & Haddr) [[[[?|?]|?]|?]|(id & addr & m & Hid & ? & Hm & ?)];
      try done.
    destruct (Haddr id addr m Hid Hm); done.
Qed.

(** ** The ids of the new members *)

(** C7, as amended: the maximum member id of an assembled snapshot is at
    least -1 and at least every input member id; provided the maximum plus
    the number of members to create does not exceed the greatest [int], the
    synthesiser ends with the maximum raised by that number, changes the
    member of no other machine id, and gives the k-th member it creates, for
    a machine id that had none, the id maximum + 1 + k: above every id
    observed and every id given earlier. *)
Theorem new_member_ids_increase ms sts mems port space info :
  newPeerGroupInfo ms sts mems port space = (Some info, None) →
  (maxMemberId info + Z.of_nat (length (createdIds (reviewedChanges info))) ≤ maxInt64)%Z →
  let p := reviewedChanges info in
  let r := proposedChanges info in
  (-1 ≤ maxMemberId info)%Z ∧
  (∀ m, m ∈ mems → (Id m ≤ maxMemberId info)%Z) ∧
  r.2 = (maxMemberId info + Z.of_nat (length (createdIds p)))%Z ∧
  (maxMemberId info ≤ r.2)%Z ∧
  (∀ id, id ∉ createdIds p → members r.1 !! id = members p !! id) ∧
  (∀ k id, createdIds p !! k = Some id →
     members p !! id = None ∧
     ∃ m, members r.1 !! id = Some m ∧ Id m = (maxMemberId info + 1 + Z.of_nat k)%Z).
Proof.
  intros Hnew Hfit p r.
  pose proof (newPeerGroupInfo_ok _ _ _ _ _ _ Hnew) as Hok.
  destruct (checkedChanges_fresh info) as [Hnil Hmv].
  assert ((-1 ≤ maxMemberId info)%Z ∧ ∀ m, m ∈ mems → (Id m ≤ maxMemberId info)%Z)
    as [Hlo Hall].
  { apply newPeerGroupInfo_Some in Hnew as [_ ->].
    match goal with |- context [foldl _ ?i mems] =>
      destruct (assemble_maxMemberId ms sts mems i) as (Hle & Hall & _) end.
    simpl in Hle. done. }
  assert (NoDup (createdIds p)) as Hnd.
  { unfold createdIds. apply NoDup_app.
    split; [apply (NoDup_reviewed_keep info _ Hnil KeepCreateNonVotingMember); by right|].
    split; [by intros id Hc [[_ ?] _]%list_elem_of_filter|].
    apply NoDup_filter, (NoDup_reviewed_keep info _ Hnil KeepNonVoting). by left. }
  assert (r = foldl createMember (p, maxMemberId info) (createdIds p)) as Hr.
  { unfold r, proposedChanges, proposeChanges. apply createNonVotingMember_as_fold.
    apply (NoDup_reviewed_keep info _ Hnil KeepNonVoting). by left. }
  destruct (createMember_fold (createdIds p) p (maxMemberId info))
    as (Hz & _ & _ & _ & _ & Hout & Hin); [unfold minInt64; lia|done|done|].
  rewrite <-Hr in Hz, Hout, Hin.
  split; [done|]. split; [done|]. split; [done|]. split; [lia|]. split; [done|].
  intros k id Hk. split.
  - unfold p, reviewedChanges, classifiedChanges. rewrite (reviewed_members info _).
    apply (created_fresh info (checkedChanges info) Hnil).
    by eapply list_elem_of_lookup_2.
  - destruct (Hin k id Hk) as (m & Hm & Hid & _). by exists m.
Qed.

Lemma new_member_ids_increase_witness :
  newPeerGroupInfo idleMachines idleStatuses idleMembers 37017 "" = (Some idleInfo, None) ∧
  (maxMemberId idleInfo + Z.of_nat (length (createdIds (reviewedChanges idleInfo)))
     ≤ maxInt64)%Z ∧
  (proposedChanges idleInfo).2 =
    (maxMemberId idleInfo + Z.of_nat (length (createdIds (reviewedChanges idleInfo))))%Z ∧
  (maxMemberId idleInfo ≤ (proposedChanges idleInfo).2)%Z.
Proof.
  assert (newPeerGroupInfo idleMachines idleStatuses idleMembers 37017 ""
          = (Some idleInfo, None)) as H1 by reflexivity.
  assert (maxMemberId idleInfo + Z.of_nat (length (createdIds (reviewedChanges idleInfo)))
          ≤ maxInt64)%Z as H2 by (vm_compute; discriminate).
  split; [exact H1|]. split; [exact H2|].
  pose proof (new_member_ids_increase idleMachines idleStatuses idleMembers 37017 ""
                idleInfo H1 H2) as (_ & _ & H3 & H4 & _).
  exact (conj H3 H4).
Defined.

(** C7 as stated fails: when the highest member id is the greatest [int], the
    id of the next member wraps around to the least one, below every id
    observed. *)
Lemma brim_member_id_wraps :
  newPeerGroupInfo brimMachines [mkStatus maxInt64 true PrimaryState] brimMembers 37017 ""
    = (Some brimInfo, None) ∧
  maxMemberId brimInfo = maxInt64 ∧
  (proposedChanges brimInfo).2 = minInt64 ∧
  ((proposedChanges brimInfo).2 < maxMemberId brimInfo)%Z ∧
  recognised brimInfo !! "1" = None ∧
  ∃ m, members (proposedChanges brimInfo).1 !! "1" = Some m ∧
       (Id m < maxMemberId brimInfo)%Z.
Proof.
  split; [reflexivity|]. split; [by vm_compute|]. split; [by vm_compute|].
  split; [by vm_compute|]. split; [reflexivity|].
  destruct (members (proposedChanges brimInfo).1 !! "1") as [m|] eqn:Hm;
    [|vm_compute in Hm; discriminate Hm].
  exists m. split; [done|]. vm_compute in Hm. injection Hm as <-. by vm_compute.
Qed.


(** * Further properties of the reconciler *)

(** ** More on the snapshot assembler *)

Lemma assemble_config ms sts mems : ∀ info,
  mongoPort (foldl (assembleMember ms sts) info mems) = mongoPort info ∧
  haSpace (foldl (assembleMember ms sts) info mems) = haSpace info.
Proof.
  induction mems as [|m mems IH]; intros info; simpl; [done|].
  destruct (IH (assembleMember ms sts info m)) as [-> ->].
  unfold assembleMember.
  destruct (Tags m !! jujuMachineKey) as [id|]; [destruct (ms !! id)|]; simpl;
    destruct (Z.gtb _ _); done.
Qed.

(** X1: the assembler rejects exactly the empty member list, with the
    empty-member-set error and no snapshot; any other list gives a snapshot
    that carries the machines, the port and the space it was given. *)
Theorem newPeerGroupInfo_rejects_only_empty ms sts mems port space :
  (newPeerGroupInfo ms sts mems port space = (None, Some ErrEmptyMemberSet) ↔ mems = []) ∧
  (mems ≠ [] →
   ∃ info, newPeerGroupInfo ms sts mems port space = (Some info, None) ∧
           machines info = ms ∧ mongoPort info = port ∧ haSpace info = space).
Proof.
  unfold newPeerGroupInfo. split.
  - destruct mems; simpl; [done|]. split; discriminate.
  - intros Hne. destruct mems as [|m mems]; [done|]. simpl length.
    rewrite decide_False by lia. eexists. split; [done|].
    rewrite assemble_machines.
    match goal with |- context [foldl _ ?i (m :: mems)] =>
      destruct (assemble_config ms sts (m :: mems) i) as [-> ->] end.
    done.
Qed.

(** X2: the extra list is the input member list, in its order, without the
    members whose machine-id tag names a known machine. *)
Theorem extra_is_unrecognised_sublist ms sts mems port space info :
  newPeerGroupInfo ms sts mems port space = (Some info, None) →
  extra info = filter (λ m, knownTag ms m = None) mems.
Proof.
  intros [_ ->]%newPeerGroupInfo_Some. by rewrite assemble_extra.
Qed.

Lemma extra_is_unrecognised_sublist_witness :
  newPeerGroupInfo twinMachines strayStatuses strayMembers 37017 "" = (Some strayInfo, None) ∧
  extra strayInfo = filter (λ m, knownTag twinMachines m = None) strayMembers.
Proof.
  assert (newPeerGroupInfo twinMachines strayStatuses strayMembers 37017 ""
          = (Some strayInfo, None)) as H1 by reflexivity.
  split; [exact H1|].
  exact (extra_is_unrecognised_sublist twinMachines strayStatuses strayMembers 37017 ""
           strayInfo H1).
Defined.

(** X3: the recognised map holds, under each machine id, the last input
    member whose machine-id tag names that known machine, and nothing under
    any other id; so a recognised member is an input member that carries
    the tag of its key. *)
Theorem recognised_is_last_tagged ms sts mems port space info :
  newPeerGroupInfo ms sts mems port space = (Some info, None) →
  (∀ id, recognised info !! id = last (filter (λ m, knownTag ms m = Some id) mems)) ∧
  (∀ id m, recognised info !! id = Some m →
     m ∈ mems ∧ Tags m !! jujuMachineKey = Some id ∧ is_Some (ms !! id)).
Proof.
  intros [_ ->]%newPeerGroupInfo_Some.
  assert (∀ id, recognised (foldl (assembleMember ms sts)
            {| machines := ms; statuses := ∅; recognised := ∅; extra := [];
               maxMemberId := -1; mongoPort := port; haSpace := space |} mems) !! id
          = last (filter (λ m, knownTag ms m = Some id) mems)) as Hlast.
  { intros id. rewrite assemble_recognised. simpl. rewrite lookup_empty.
    by destruct (last _). }
  split; [done|]. intros id m. rewrite Hlast.
  intros [Hm Hk%knownTag_Some]%last_filter_Some. tauto.
Qed.

Lemma recognised_is_last_tagged_witness :
  newPeerGroupInfo twinMachines [] twinMembers 37017 "" = (Some twinInfo, None) ∧
  recognised twinInfo !! "0" =
    last (filter (λ m, knownTag twinMachines m = Some "0") twinMembers).
Proof.
  assert (newPeerGroupInfo twinMachines [] twinMembers 37017 "" = (Some twinInfo, None))
    as H1 by reflexivity.
  split; [exact H1|].
  exact (proj1 (recognised_is_last_tagged twinMachines [] twinMembers 37017 "" twinInfo H1)
           "0").
Defined.

(** X4: maxMemberId of a snapshot is the least integer that is at least -1
    and at least the id of every input member, extras included. *)
Theorem maxMemberId_is_least_bound ms sts mems port space info :
  newPeerGroupInfo ms sts mems port space = (Some info, None) →
  ∀ z, (maxMemberId info ≤ z)%Z ↔ (-1 ≤ z)%Z ∧ ∀ m, m ∈ mems → (Id m ≤ z)%Z.
Proof.
  intros [_ ->]%newPeerGroupInfo_Some z.
  match goal with |- context [foldl _ ?i mems] =>
    destruct (assemble_maxMemberId ms sts mems i) as (Hle & Hall & Hwit) end.
  simpl in Hle, Hwit. split.
  - intros Hz. split; [lia|]. intros m Hm. specialize (Hall m Hm). lia.
  - intros [Hlo Hids]. destruct Hwit as [->|(m & Hm & ->)]; [lia|by apply Hids].
Qed.

Lemma maxMemberId_is_least_bound_witness :
  newPeerGroupInfo steadyMachines steadyStatuses steadyMembers 37017 "" = (Some steadyInfo, None) ∧
  ((maxMemberId steadyInfo ≤ 3)%Z ↔ (-1 ≤ 3)%Z ∧ ∀ m, m ∈ steadyMembers → (Id m ≤ 3)%Z).
Proof.
  assert (newPeerGroupInfo steadyMachines steadyStatuses steadyMembers 37017 ""
          = (Some steadyInfo, None)) as H1 by reflexivity.
  split; [exact H1|].
  exact (maxMemberId_is_least_bound steadyMachines steadyStatuses steadyMembers 37017 ""
           steadyInfo H1 3%Z).
Defined.

Lemma linkStatuses_lookup sts m id : ∀ acc id',
  linkStatuses sts m id acc !! id' =
    if decide (id' = id)
    then match last (filter (λ s, sts_Id s = Id m) sts) with
         | Some s => Some s
         | None => acc !! id'
         end
    else acc !! id'.
Proof.
  unfold linkStatuses. induction sts as [|s sts IH]; intros acc id'; simpl.
  - by case_decide.
  - rewrite IH, filter_cons. destruct (decide (id' = id)) as [->|Hne].
    + destruct (decide (sts_Id s = Id m)) as [Hs|Hs].
      * rewrite last_cons, lookup_insert_eq. by destruct (last _).
      * done.
    + case_decide; [|done]. by rewrite lookup_insert_ne.
Qed.

Lemma assemble_statuses_untagged ms sts mems id : ∀ info,
  (∀ m, m ∈ mems → Tags m !! jujuMachineKey ≠ Some id) →
  statuses (foldl (assembleMember ms sts) info mems) !! id = statuses info !! id.
Proof.
  induction mems as [|m mems IH]; intros info Hno; simpl; [done|].
  rewrite IH by (intros m' Hm'; apply Hno; by apply list_elem_of_further).
  destruct (assembleMember_fields ms sts info m) as (_ & _ & _ & -> & _).
  pose proof (Hno m (list_elem_of_here _ _)) as Hm.
  destruct (Tags m !! jujuMachineKey) as [id'|]; [|done].
  rewrite linkStatuses_lookup, decide_False; [done|congruence].
Qed.

Lemma assemble_statuses_same_id ms sts mems id z : ∀ info,
  (∀ m, m ∈ mems → Tags m !! jujuMachineKey = Some id → Id m = z) →
  statuses (foldl (assembleMember ms sts) info mems) !! id =
    match filter (λ m, Tags m !! jujuMachineKey = Some id) mems with
    | [] => statuses info !! id
    | _ :: _ =>
        match last (filter (λ s, sts_Id s = z) sts) with
        | Some s => Some s
        | None => statuses info !! id
        end
    end.
Proof.
  induction mems as [|m mems IH]; intros info Hsame; simpl; [done|].
  rewrite IH by (intros m' Hm'; apply Hsame; by apply list_elem_of_further).
  destruct (assembleMember_fields ms sts info m) as (_ & _ & _ & -> & _).
  rewrite filter_cons.
  destruct (decide (Tags m !! jujuMachineKey = Some id)) as [Htag|Htag].
  - rewrite Htag, linkStatuses_lookup, decide_True by done.
    rewrite (Hsame m (list_elem_of_here _ _) Htag).
    destruct (filter _ mems); destruct (last _); done.
  - assert (match Tags m !! jujuMachineKey with
            | Some id0 => linkStatuses sts m id0 (statuses info)
            | None => statuses info
            end !! id = statuses info !! id) as ->; [|done].
    destruct (Tags m !! jujuMachineKey) as [id'|]; [|done].
    rewrite linkStatuses_lookup, decide_False; [done|congruence].
Qed.

(** X5: under a machine id that no input member carries as its tag no status
    is recorded; when the input members that carry it all have the id of the
    member [m], the status recorded is the last status of the list whose id
    is that of [m], and none if there is no such status. *)
Theorem status_is_last_matching ms sts mems port space info :
  newPeerGroupInfo ms sts mems port space = (Some info, None) →
  ∀ id,
    ((∀ m, m ∈ mems → Tags m !! jujuMachineKey ≠ Some id) → statuses info !! id = None) ∧
    (∀ m, m ∈ mems → Tags m !! jujuMachineKey = Some id →
       (∀ m', m' ∈ mems → Tags m' !! jujuMachineKey = Some id → Id m' = Id m) →
       statuses info !! id = last (filter (λ s, sts_Id s = Id m) sts)).
Proof.
  intros [_ ->]%newPeerGroupInfo_Some id. split.
  - intros Hno. by rewrite assemble_statuses_untagged.
  - intros m Hm Htag Hsame.
    rewrite (assemble_statuses_same_id ms sts mems id (Id m)) by done. simpl.
    destruct (filter _ mems) as [|m0 l] eqn:Hf.
    + assert (m ∈ filter (λ m, Tags m !! jujuMachineKey = Some id) mems) as Hin
        by (by apply list_elem_of_filter).
      rewrite Hf in Hin. by apply elem_of_nil in Hin.
    + rewrite lookup_empty. by destruct (last _).
Qed.

Lemma status_is_last_matching_witness :
  newPeerGroupInfo steadyMachines steadyStatuses steadyMembers 37017 "" = (Some steadyInfo, None) ∧
  ((∀ m, m ∈ steadyMembers → Tags m !! jujuMachineKey ≠ Some "7") →
   statuses steadyInfo !! "7" = None).
Proof.
  assert (newPeerGroupInfo steadyMachines steadyStatuses steadyMembers 37017 ""
          = (Some steadyInfo, None)) as H1 by reflexivity.
  split; [exact H1|].
  exact (proj1 (status_is_last_matching steadyMachines steadyStatuses steadyMembers 37017 ""
                  steadyInfo H1 "7")).
Defined.

(** ** More on the two error checks *)

Lemma checkExtraMembers_loop_first ex m :
  checkExtraMembers_loop ex = Some (ErrExtraVotingMember m) ↔
  ∃ l1 l2, ex = l1 ++ m :: l2 ∧ Forall (λ x, isVotingMember x = false) l1 ∧
           isVotingMember m = true.
Proof.
  induction ex as [|x ex IH]; simpl.
  - split; [done|]. intros (l1 & l2 & Hex & _). by destruct l1.
  - destruct (isVotingMember x) eqn:Hx.
    + split.
      * intros [= ->]. exists [], ex. repeat split; [constructor|done].
      * intros ([|y l1] & l2 & Hex & Hl1 & Hm); simplify_eq/=; [done|].
        apply Forall_cons in Hl1 as [? _]. congruence.
    + rewrite IH. split.
      * intros (l1 & l2 & -> & Hl1 & Hm). exists (x :: l1), l2.
        repeat split; [by constructor|done].
      * intros ([|y l1] & l2 & Hex & Hl1 & Hm); simplify_eq/=; [congruence|].
        apply Forall_cons in Hl1 as [_ ?]. by exists l1, l2.
Qed.

(** X6: checkExtraMembers fails on the first voting member of the list it is
    given, in list order, and then leaves the changes untouched; when no
    member of the list votes it succeeds, and marks the changes as changed
    exactly when the list is not empty, touching nothing else. *)
Theorem checkExtraMembers_reports_first_voter p ex :
  (∀ m, (checkExtraMembers p ex).2 = Some (ErrExtraVotingMember m) ↔
        ∃ l1 l2, ex = l1 ++ m :: l2 ∧ Forall (λ x, isVotingMember x = false) l1 ∧
                 isVotingMember m = true) ∧
  (is_Some (checkExtraMembers p ex).2 → (checkExtraMembers p ex).1 = p) ∧
  ((checkExtraMembers p ex).2 = None ↔ Forall (λ x, isVotingMember x = false) ex) ∧
  ((checkExtraMembers p ex).2 = None →
   (checkExtraMembers p ex).1 = match ex with [] => p | _ :: _ => set_isChanged p true end).
Proof.
  unfold checkExtraMembers. split; [|split; [|split]].
  - intros m. rewrite <-checkExtraMembers_loop_first.
    destruct (checkExtraMembers_loop ex); simpl; [done|]. split; discriminate.
  - destruct (checkExtraMembers_loop ex); simpl; [done|]. by intros [? ?].
  - rewrite Forall_forall, <-checkExtraMembers_loop_None.
    destruct (checkExtraMembers_loop ex); simpl; [split; discriminate|done].
  - destruct (checkExtraMembers_loop ex); simpl; [done|]. intros _.
    by destruct ex.
Qed.

Lemma getMongoAddresses_result p info :
  let r := getMongoAddresses p info in
  (r.2 = None ↔
   ∀ id m, machines info !! id = Some m →
           (SelectMongoAddress m (mongoPort info) (haSpace info)).2 = None) ∧
  (r.2 = None →
   addrs r.1 = (λ m, (SelectMongoAddress m (mongoPort info) (haSpace info)).1)
                 <$> machines info) ∧
  (∀ e, r.2 = Some e →
        ∃ id m msg, machines info !! id = Some m ∧
          (SelectMongoAddress m (mongoPort info) (haSpace info)).2 = Some msg ∧
          e = ErrNoUsableAddress msg).
Proof.
  unfold getMongoAddresses.
  apply (map_fold_weak_ind (λ (r : peerGroupChanges * option error)
                              (ms : gmap string machineTracker),
    (r.2 = None ↔
     ∀ id m, ms !! id = Some m →
             (SelectMongoAddress m (mongoPort info) (haSpace info)).2 = None) ∧
    (r.2 = None →
     addrs r.1 = (λ m, (SelectMongoAddress m (mongoPort info) (haSpace info)).1) <$> ms) ∧
    (∀ e, r.2 = Some e →
          ∃ id m msg, ms !! id = Some m ∧
            (SelectMongoAddress m (mongoPort info) (haSpace info)).2 = Some msg ∧
            e = ErrNoUsableAddress msg))).
  - simpl. split; [|split]; [|by rewrite fmap_empty|done].
    split; [|done]. intros _ id m Hid. by rewrite lookup_empty in Hid.
  - intros i t ms [q err] Hi (Hnone & Haddrs & Herr). simpl in *.
    destruct err as [e|]; simpl.
    + split; [|split]; [|done|].
      * split; [done|]. intros Hall. apply Hnone. intros id m Hid.
        apply (Hall id m). rewrite lookup_insert_ne; [done|congruence].
      * intros e' [= <-]. destruct (Herr e eq_refl) as (id & m & msg & Hid & Hsel & ->).
        exists id, m, msg. split; [|done]. rewrite lookup_insert_ne; [done|congruence].
    + destruct (SelectMongoAddress t (mongoPort info) (haSpace info)) as [a err] eqn:Hsel.
      simpl. split; [|split].
      * split.
        -- intros Hok id m [[<- <-]|[_ Hid]]%lookup_insert_Some.
           ++ rewrite Hsel. simpl. by destruct err.
           ++ by apply (proj1 Hnone eq_refl id m).
        -- intros Hall. pose proof (Hall i t (lookup_insert_eq _ _ _)) as Ht.
           rewrite Hsel in Ht. simpl in Ht. by rewrite Ht.
      * intros _. rewrite fmap_insert, Hsel. simpl. by rewrite (Haddrs eq_refl).
      * intros e He. destruct err as [msg|]; [|done]. injection He as <-.
        exists i, t, msg. rewrite lookup_insert_eq, Hsel. done.
Qed.

(** X7: getMongoAddresses succeeds exactly when the address selection of
    every tracked machine succeeds, and then holds, for each machine id, the
    address its tracker selected for the port and the space of the snapshot;
    a failure carries the message of a tracker whose selection failed. *)
Theorem getMongoAddresses_selects_all p info :
  ((getMongoAddresses p info).2 = None ↔
   ∀ id m, machines info !! id = Some m →
           (SelectMongoAddress m (mongoPort info) (haSpace info)).2 = None) ∧
  ((getMongoAddresses p info).2 = None →
   ∀ id, addrs (getMongoAddresses p info).1 !! id =
         (λ m, (SelectMongoAddress m (mongoPort info) (haSpace info)).1)
           <$> machines info !! id) ∧
  (∀ e, (getMongoAddresses p info).2 = Some e →
        ∃ id m msg, machines info !! id = Some m ∧
          (SelectMongoAddress m (mongoPort info) (haSpace info)).2 = Some msg ∧
          e = ErrNoUsableAddress msg).
Proof.
  destruct (getMongoAddresses_result p info) as (H1 & H2 & H3).
  split; [done|]. split; [|done].
  intros Hok id. by rewrite (H2 Hok), lookup_fmap.
Qed.

Lemma desiredPeerGroup_unfold info :
  desiredPeerGroup info =
    match checkExtraMembers_loop (extra info) with
    | Some e => Some (None, None, Some e)
    | None =>
        match (getMongoAddresses (checkExtraMembers newChanges (extra info)).1 info).2 with
        | Some e => Some (None, None, Some e)
        | None =>
            p5 ← adjustVotes (getMachinesVoting (proposedChanges info).1);
            Some (if isChanged (updateAddresses p5)
                  then Some (members (updateAddresses p5)) else None,
                  Some (machineVoting (updateAddresses p5)), None)
        end
    end.
Proof.
  unfold desiredPeerGroup, proposedChanges, checkedChanges, checkExtraMembers.
  destruct (checkExtraMembers_loop (extra info)) as [e|]; [done|]. simpl.
  destruct (getMongoAddresses _ info) as [q [e|]]; [done|]. simpl.
  destruct (adjustVotes _) as [p5|]; [|done]. simpl.
  by destruct (isChanged _).
Qed.

(** X8: on an assembled snapshot desiredPeerGroup ends in one of two ways.
    It returns an error, with nil maps, when an extra member votes or when
    the address selection of some machine fails; the address error is
    returned only when no extra member votes.  Otherwise, and only then, it
    returns a voting map and no error. *)
Theorem desiredPeerGroup_outcome ms sts mems port space info :
  newPeerGroupInfo ms sts mems port space = (Some info, None) →
  (∀ msg, desiredPeerGroup info = Some (None, None, Some (ErrNoUsableAddress msg)) →
     Forall (λ m, isVotingMember m = false) (extra info) ∧
     ∃ id t, ms !! id = Some t ∧ (SelectMongoAddress t port space).2 = Some msg) ∧
  ((∃ proposal voting, desiredPeerGroup info = Some (proposal, Some voting, None)) ↔
   Forall (λ m, isVotingMember m = false) (extra info) ∧
   ∀ id t, ms !! id = Some t → (SelectMongoAddress t port space).2 = None) ∧
  ((∃ e, desiredPeerGroup info = Some (None, None, Some e)) ∨
   (∃ proposal voting, desiredPeerGroup info = Some (proposal, Some voting, None))).
Proof.
  intros Hnew. pose proof (newPeerGroupInfo_ok _ _ _ _ _ _ Hnew) as Hok.
  assert (machines info = ms ∧ mongoPort info = port ∧ haSpace info = space)
    as (Hms & Hport & Hspace).
  { apply newPeerGroupInfo_Some in Hnew as [_ ->]. rewrite assemble_machines.
    match goal with |- context [foldl _ ?i mems] =>
      destruct (assemble_config ms sts mems i) as [-> ->] end. done. }
  destruct (checkedChanges_fresh info) as [Hnil Hmv].
  destruct (adjusted_voting info Hok _ Hnil Hmv) as (p5 & Hp5 & _).
  pose proof (desiredPeerGroup_unfold info) as Hrun.
  unfold proposedChanges in Hrun. rewrite Hp5 in Hrun. simpl in Hrun.
  destruct (getMongoAddresses_result (checkExtraMembers newChanges (extra info)).1 info)
    as (Hsel & _ & Herr).
  rewrite Hms, Hport, Hspace in Hsel, Herr.
  destruct (checkExtraMembers_loop (extra info)) as [e|] eqn:Hloop.
  - apply checkExtraMembers_loop_Some in Hloop as (m & -> & Hm & Hv).
    rewrite Hrun. split; [done|]. split; [|left; by eexists].
    split; [by intros (? & ? & [=])|].
    intros [Hall _]. rewrite Forall_forall in Hall. rewrite (Hall m Hm) in Hv. done.
  - rewrite checkExtraMembers_loop_None, <-Forall_forall in Hloop.
    destruct (getMongoAddresses _ info).2 as [e|] eqn:Haddr.
    + rewrite Hrun. destruct (Herr e eq_refl) as (id & t & msg & Hid & Ht & ->).
      split; [|split; [|left; by eexists]].
      * intros msg' [= <-]. split; [done|]. by exists id, t.
      * split; [by intros (? & ? & [=])|].
        intros [_ Hall]. rewrite (Hall id t Hid) in Ht. done.
    + rewrite Hrun. split; [done|]. split; [|right; by eexists _, _].
      split; [|by eexists _, _]. intros _. split; [done|]. by apply Hsel.
Qed.

Lemma desiredPeerGroup_outcome_witness :
  newPeerGroupInfo lostMachines steadyStatuses steadyMembers 37017 "" = (Some lostInfo, None) ∧
  ((∃ e, desiredPeerGroup lostInfo = Some (None, None, Some e)) ∨
   (∃ proposal voting, desiredPeerGroup lostInfo = Some (proposal, Some voting, None))).
Proof.
  assert (newPeerGroupInfo lostMachines steadyStatuses steadyMembers 37017 ""
          = (Some lostInfo, None)) as H1 by reflexivity.
  split; [exact H1|].
  exact (proj2 (proj2 (desiredPeerGroup_outcome lostMachines steadyStatuses steadyMembers
                         37017 "" lostInfo H1))).
Defined.

(** ** More on the quorum adjuster *)

Lemma review_outcomes p info :
  let q := reviewPeerGroupChanges p info in
  q = p ∨
  (∃ init last, toAddVote p = init ++ [last] ∧ q = set_toAddVote p init) ∨
  (toAddVote p = [] ∧
   q = set_toRemoveVote p
         (filter (λ id, isPrimaryMember info id = false) (toRemoveVote p))) ∨
  (toAddVote p = [] ∧
   ∃ l1 x l2, toKeepVoting p = l1 ++ x :: l2 ∧
     Forall (λ id, isPrimaryMember info id = true) l1 ∧
     isPrimaryMember info x = false ∧
     q = set_toKeepVoting (set_toRemoveVote p (toRemoveVote p ++ [x])) (l1 ++ l2)).
Proof.
  intros q.
  destruct (decide (Z.rem (countVoters (members p) - Z.of_nat (length (toRemoveVote p))
                           + Z.of_nat (length (toAddVote p))) 2 = 1%Z)) as [Hodd|Heven].
  { left. by apply review_odd. }
  destruct (toAddVote p) as [|last init _] eqn:Hadd using rev_ind.
  2:{ right; left. exists init, last. split; [done|].
      apply (review_trim p info init last); [|done]. by rewrite Hadd. }
  destruct (decide ((countVoters (members p) - Z.of_nat (length (toRemoveVote p)))%Z = 0%Z))
    as [Hkept|Hkept].
  { right; right; left. split; [done|]. apply review_wind_down; [by rewrite Hadd|done..]. }
  destruct (firstNonPrimary info (toKeepVoting p) 0) as [[j x]|] eqn:Hf.
  - right; right; right. split; [done|].
    apply firstNonPrimary_Some in Hf as (l1 & l2 & HK & _ & Hx & Hl1).
    exists l1, x, l2. split; [done|]. split; [done|]. split; [done|].
    apply review_demote; [by rewrite Hadd|done..].
  - left. apply firstNonPrimary_None in Hf.
    apply review_all_primary; [by rewrite Hadd|done..].
Qed.

(** X9: the adjuster does one of four things to the changes it is given: it
    leaves them as they are; it cuts the last entry off toAddVote; with
    nothing to add, it takes the primaries out of toRemoveVote, keeping the
    order of the others; or, with nothing to add, it moves the first entry of
    toKeepVoting that is not a primary to the end of toRemoveVote, keeping
    the order of the others.  Nothing else in the changes is touched. *)
Theorem adjuster_has_four_outcomes p info :
  reviewPeerGroupChanges p info = p ∨
  (∃ init last, toAddVote p = init ++ [last] ∧
     reviewPeerGroupChanges p info = set_toAddVote p init) ∨
  (toAddVote p = [] ∧
   reviewPeerGroupChanges p info =
     set_toRemoveVote p
       (filter (λ id, isPrimaryMember info id = false) (toRemoveVote p))) ∨
  (toAddVote p = [] ∧
   ∃ l1 x l2, toKeepVoting p = l1 ++ x :: l2 ∧
     Forall (λ id, isPrimaryMember info id = true) l1 ∧
     isPrimaryMember info x = false ∧
     reviewPeerGroupChanges p info =
       set_toKeepVoting (set_toRemoveVote p (toRemoveVote p ++ [x])) (l1 ++ l2)).
Proof. apply review_outcomes. Qed.

(** X10: the adjuster never grants a vote and withholds at most one.  The
    final toAddVote is the classifier's, or that without its last entry; the
    final toKeepVoting is the classifier's, or that without one entry, which
    is not a primary; the two together lose at most one entry; and every
    machine id that leaves toRemoveVote is a primary. *)
Theorem adjuster_withholds_at_most_one p info :
  let q := reviewPeerGroupChanges p info in
  (toAddVote q = toAddVote p ∨ ∃ last, toAddVote p = toAddVote q ++ [last]) ∧
  (toKeepVoting q = toKeepVoting p ∨
   ∃ l1 x l2, toKeepVoting p = l1 ++ x :: l2 ∧ toKeepVoting q = l1 ++ l2 ∧
              isPrimaryMember info x = false) ∧
  length (toKeepVoting p) + length (toAddVote p)
    ≤ length (toKeepVoting q) + length (toAddVote q) + 1 ∧
  (∀ id, id ∈ toRemoveVote p → id ∉ toRemoveVote q → isPrimaryMember info id = true).
Proof.
  intros q. subst q.
  destruct (review_outcomes p info)
    as [->|[(init & last & Hadd & ->)|[(Hadd & ->)|(Hadd & l1 & x & l2 & HK & Hl1 & Hx & ->)]]];
    simpl.
  - repeat split; [by left|by left|lia|done].
  - rewrite Hadd. repeat split; [right; by exists last|by left| |done].
    rewrite length_app. simpl. lia.
  - repeat split; [by left|by left|lia|].
    intros id Hid Hno. destruct (isPrimaryMember info id) eqn:Hp; [done|].
    destruct Hno. by apply list_elem_of_filter.
  - rewrite HK. repeat split; [by left|right; by exists l1, x, l2| |].
    + rewrite !length_app. simpl. lia.
    + intros id Hid Hno. destruct Hno. apply elem_of_app. by left.
Qed.

(** ** More on the classifier *)

(** X11: the classifier visits each tracked machine id once, in increasing
    byte order.  Every bucket is a subsequence of that sorted list, hence
    sorted itself, and the five buckets together hold each tracked machine
    id exactly once. *)
Theorem classifier_partitions_sorted_ids info :
  let q := classifiedChanges info in
  StronglySorted string_le (machineIds info) ∧
  NoDup (machineIds info) ∧
  (∀ id, id ∈ machineIds info ↔ is_Some (machines info !! id)) ∧
  (∀ b, sublist (bucketList b q) (machineIds info) ∧
        StronglySorted string_le (bucketList b q)) ∧
  toKeepVoting q ++ toAddVote q ++ toKeepNonVoting q
    ++ toKeepCreateNonVotingMember q ++ toRemoveVote q ≡ₚ machineIds info.
Proof.
  destruct (checkedChanges_fresh info) as [Hnil _].
  intros q.
  assert (∀ b, bucketList b q =
               filter (λ id, tableBucket info (recognised info) id = Some b)
                 (machineIds info)) as Hfilter.
  { intros b. unfold q, classifiedChanges. rewrite possible_bucketList.
    replace (bucketList b (set_members (checkedChanges info) (initNewReplicaSet info)))
      with (bucketList b (checkedChanges info)) by (by destruct b).
    by rewrite Hnil. }
  split; [apply machineIds_sorted|]. split; [apply NoDup_machineIds|].
  split; [apply elem_of_machineIds|]. split.
  - intros b. rewrite Hfilter. split; [apply sublist_filter|].
    apply StronglySorted_filter_list, machineIds_sorted.
  - assert (∀ b1 b2 id, id ∈ bucketList b1 q → id ∈ bucketList b2 q → b1 = b2) as Hdisj.
    { intros b1 b2 id. apply (classified_disjoint info _ Hnil). }
    assert (∀ b, NoDup (bucketList b q)) as Hnd.
    { intros b. apply (NoDup_classified info _ Hnil). }
    apply NoDup_Permutation; [|apply NoDup_machineIds|].
    + repeat (apply NoDup_app; split; [|split]);
        try (apply (Hnd KeepVoting) || apply (Hnd AddVote) || apply (Hnd KeepNonVoting)
             || apply (Hnd KeepCreateNonVotingMember) || apply (Hnd RemoveVote)).
      * intros id Hk. rewrite !elem_of_app. intros [H|[H|[H|H]]].
        -- by pose proof (Hdisj KeepVoting AddVote id Hk H).
        -- by pose proof (Hdisj KeepVoting KeepNonVoting id Hk H).
        -- by pose proof (Hdisj KeepVoting KeepCreateNonVotingMember id Hk H).
        -- by pose proof (Hdisj KeepVoting RemoveVote id Hk H).
      * intros id Hk. rewrite !elem_of_app. intros [H|[H|H]].
        -- by pose proof (Hdisj AddVote KeepNonVoting id Hk H).
        -- by pose proof (Hdisj AddVote KeepCreateNonVotingMember id Hk H).
        -- by pose proof (Hdisj AddVote RemoveVote id Hk H).
      * intros id Hk. rewrite !elem_of_app. intros [H|H].
        -- by pose proof (Hdisj KeepNonVoting KeepCreateNonVotingMember id Hk H).
        -- by pose proof (Hdisj KeepNonVoting RemoveVote id Hk H).
      * intros id Hk H.
        by pose proof (Hdisj KeepCreateNonVotingMember RemoveVote id Hk H).
    + intros id. rewrite !elem_of_app, elem_of_machineIds.
      change (id ∈ toKeepVoting q) with (id ∈ bucketList KeepVoting q).
      change (id ∈ toAddVote q) with (id ∈ bucketList AddVote q).
      change (id ∈ toKeepNonVoting q) with (id ∈ bucketList KeepNonVoting q).
      change (id ∈ toKeepCreateNonVotingMember q)
        with (id ∈ bucketList KeepCreateNonVotingMember q).
      change (id ∈ toRemoveVote q) with (id ∈ bucketList RemoveVote q).
      unfold q, classifiedChanges. rewrite !(elem_of_classified info _ Hnil). split.
      * intros [(m & ? & _)|[(m & ? & _)|[(m & ? & _)|[(m & ? & _)|(m & ? & _)]]]];
          by exists m.
      * intros [m Hm].
        destruct (table (WantsVote m) (votesNow (recognised info) id) (readyNow info id)
                    (bool_decide (is_Some (recognised info !! id)))) eqn:Hb.
        -- left. by exists m.
        -- right; left. by exists m.
        -- right; right; left. by exists m.
        -- right; right; right; left. by exists m.
        -- right; right; right; right. by exists m.
Qed.

(** ** More on the member synthesiser *)

Lemma createMember_shape acc id :
  let r := createMember acc id in
  (∀ b, bucketList b r.1 = bucketList b acc.1) ∧
  machineVoting r.1 = machineVoting acc.1 ∧ isChanged r.1 = isChanged acc.1 ∧
  addrs r.1 = addrs acc.1 ∧
  members r.1 = <[id := newNonVotingMember id r.2]> (members acc.1).
Proof. unfold createMember. simpl. repeat split; by intros []. Qed.

Lemma createLoop_shape l : ∀ acc,
  let r := foldl createMember acc l in
  (∀ b, bucketList b r.1 = bucketList b acc.1) ∧
  machineVoting r.1 = machineVoting acc.1 ∧ isChanged r.1 = isChanged acc.1 ∧
  addrs r.1 = addrs acc.1 ∧
  (∀ id, id ∉ l → members r.1 !! id = members acc.1 !! id) ∧
  (∀ id, id ∈ l → ∃ z, members r.1 !! id = Some (newNonVotingMember id z)).
Proof.
  induction l as [|a l IH]; intros acc.
  - simpl. repeat split; try done. intros id Hid. by apply elem_of_nil in Hid.
  - change (foldl createMember acc (a :: l))
      with (foldl createMember (createMember acc a) l).
    destruct (IH (createMember acc a)) as (Hb & Hv & Hc & Had & Hout & Hin).
    destruct (createMember_shape acc a) as (Hb' & Hv' & Hc' & Had' & Hm').
    intros r. subst r. split; [intros b; by rewrite Hb, Hb'|].
    split; [by rewrite Hv|]. split; [by rewrite Hc|]. split; [by rewrite Had|]. split.
    + intros id [Hne Hid]%not_elem_of_cons. rewrite Hout, Hm' by done.
      by rewrite lookup_insert_ne.
    + intros id Hid. destruct (decide (id ∈ l)) as [Hl|Hl]; [by apply Hin|].
      apply elem_of_cons in Hid as [->|?]; [|done].
      rewrite Hout, Hm', lookup_insert_eq by done. by eexists.
Qed.

Lemma keepLoop_shape l : ∀ acc,
  let r := foldl (λ acc id,
      match members acc.1 !! id with
      | Some _ => acc
      | None => createMember acc id
      end) acc l in
  (∀ b, bucketList b r.1 = bucketList b acc.1) ∧
  machineVoting r.1 = machineVoting acc.1 ∧ isChanged r.1 = isChanged acc.1 ∧
  addrs r.1 = addrs acc.1 ∧
  (∀ id m, members acc.1 !! id = Some m → members r.1 !! id = Some m) ∧
  (∀ id, id ∈ l → is_Some (members r.1 !! id)) ∧
  (∀ id m, members r.1 !! id = Some m →
     members acc.1 !! id = Some m ∨
     (members acc.1 !! id = None ∧ id ∈ l ∧ ∃ z, m = newNonVotingMember id z)).
Proof.
  induction l as [|a l IH]; intros acc.
  - simpl. repeat split; try done; [|by left].
    intros id Hid. by apply elem_of_nil in Hid.
  - simpl foldl.
    destruct (members acc.1 !! a) as [ma|] eqn:Ha.
    + destruct (IH acc) as (Hb & Hv & Hc & Had & Hkeep & Hin & Hnew).
      intros r. subst r. repeat split; try done.
      * intros id [->|Hid]%elem_of_cons; [|by apply Hin].
        rewrite (Hkeep a ma Ha). by eexists.
      * intros id m Hm. destruct (Hnew id m Hm) as [?|(? & ? & ?)]; [by left|right].
        split; [done|]. split; [by apply list_elem_of_further|done].
    + destruct (IH (createMember acc a)) as (Hb & Hv & Hc & Had & Hkeep & Hin & Hnew).
      destruct (createMember_shape acc a) as (Hb' & Hv' & Hc' & Had' & Hm').
      intros r. subst r. split; [intros b; by rewrite Hb, Hb'|].
      split; [by rewrite Hv|]. split; [by rewrite Hc|]. split; [by rewrite Had|].
      split; [|split].
      * intros id m Hid. apply Hkeep. rewrite Hm'.
        rewrite lookup_insert_ne; [done|congruence].
      * intros id [->|Hid]%elem_of_cons; [|by apply Hin].
        erewrite Hkeep; [by eexists|]. rewrite Hm'. apply lookup_insert_eq.
      * intros id m Hm. destruct (Hnew id m Hm) as [Hacc|(Hacc & Hid & Hz)].
        -- rewrite Hm' in Hacc. apply lookup_insert_Some in Hacc as [[<- <-]|[_ ?]].
           ++ right. split; [done|]. split; [apply list_elem_of_here|by eexists].
           ++ by left.
        -- right. rewrite Hm' in Hacc. apply lookup_insert_None in Hacc as [? _].
           split; [done|]. split; [by apply list_elem_of_further|done].
Qed.

(** X12: createNonVotingMember leaves every machine id of
    toKeepCreateNonVotingMember and of toKeepNonVoting with a member.  A
    member that existed stays as it was unless its machine id is in
    toKeepCreateNonVotingMember, where it is replaced; every other member of
    the result is new: non-voting with votes 0 and priority 0, no address,
    and the machine id as its only tag.  The lists and the other fields of
    the changes are not touched. *)
Theorem createNonVotingMember_fills_gaps p maxId :
  let r := createNonVotingMember p maxId in
  (∀ b, bucketList b r.1 = bucketList b p) ∧
  machineVoting r.1 = machineVoting p ∧ isChanged r.1 = isChanged p ∧
  addrs r.1 = addrs p ∧
  (∀ id, id ∈ toKeepCreateNonVotingMember p ++ toKeepNonVoting p →
         is_Some (members r.1 !! id)) ∧
  (∀ id m, members p !! id = Some m → id ∉ toKeepCreateNonVotingMember p →
           members r.1 !! id = Some m) ∧
  (∀ id m, members r.1 !! id = Some m →
     (members p !! id = Some m ∧ id ∉ toKeepCreateNonVotingMember p) ∨
     (id ∈ (toKeepCreateNonVotingMember p ++ toKeepNonVoting p) ∧
      Votes m = Some 0%Z ∧ Priority m = Some 0%Z ∧ Address m = "" ∧
      Tags m = {[ jujuMachineKey := id ]})).
Proof.
  intros r. subst r. unfold createNonVotingMember.
  destruct (createLoop_shape (toKeepCreateNonVotingMember p) (p, maxId))
    as (Hb1 & Hv1 & Hc1 & Ha1 & Hout1 & Hin1).
  destruct (keepLoop_shape (toKeepNonVoting p)
              (foldl createMember (p, maxId) (toKeepCreateNonVotingMember p)))
    as (Hb2 & Hv2 & Hc2 & Ha2 & Hkeep2 & Hin2 & Hnew2).
  simpl in Hb1, Hv1, Hc1, Ha1, Hout1.
  split; [intros b; by rewrite Hb2, Hb1|].
  split; [by rewrite Hv2|]. split; [by rewrite Hc2|]. split; [by rewrite Ha2|].
  split; [|split].
  - intros id [Hid|Hid]%elem_of_app; [|by apply Hin2].
    destruct (Hin1 id Hid) as [z Hz]. rewrite (Hkeep2 _ _ Hz). by eexists.
  - intros id m Hm Hid. apply Hkeep2. by rewrite Hout1.
  - intros id m Hm.
    destruct (decide (id ∈ toKeepCreateNonVotingMember p)) as [Hc|Hc].
    + right. split; [apply elem_of_app; by left|].
      destruct (Hin1 id Hc) as [z Hz]. rewrite (Hkeep2 _ _ Hz) in Hm.
      by injection Hm as <-.
    + destruct (Hnew2 id m Hm) as [Hacc|(Hacc & Hid & z & ->)].
      * left. split; [|done]. by rewrite <-Hout1.
      * right. split; [apply elem_of_app; by right|done].
Qed.

(** ** More on adjusting the votes *)

Lemma setMemberVoting_twice m v1 v2 :
  setMemberVoting (setMemberVoting m v1) v2 = setMemberVoting m v2.
Proof. by destruct v1, v2. Qed.

Lemma isVotingMember_setMemberVoting m v : isVotingMember (setMemberVoting m v) = v.
Proof. by destruct v. Qed.

Lemma setVoting_inv l v : ∀ p q,
  setVoting l v p = Some q →
  (∀ id, id ∈ l → is_Some (members p !! id)) ∧
  (∀ b, bucketList b q = bucketList b p) ∧
  isChanged q = isChanged p ∧ addrs q = addrs p ∧
  (∀ id, members q !! id =
         if decide (id ∈ l) then (λ m, setMemberVoting m v) <$> members p !! id
         else members p !! id) ∧
  (∀ id, machineVoting q !! id =
         if decide (id ∈ l) then Some v else machineVoting p !! id).
Proof.
  induction l as [|a l IH]; intros p q; simpl.
  - intros [= <-]. repeat split; try done. intros id Hid. by apply elem_of_nil in Hid.
  - destruct (members p !! a) as [m|] eqn:Ha; [|done].
    intros (Hall & Hb & Hc & Had & Hm & Hv)%IH. simpl in *.
    split; [|split; [|split; [|split; [|split]]]]; try done.
    + intros id [->|Hid]%elem_of_cons; [by eexists|].
      specialize (Hall id Hid). apply lookup_insert_is_Some' in Hall as [->|?]; [|done].
      by eexists.
    + intros id. rewrite Hm. destruct (decide (id = a)) as [->|Hne].
      * rewrite lookup_insert_eq, Ha, (decide_True (P := a ∈ a :: l))
          by apply list_elem_of_here.
        case_decide; simpl; [by rewrite setMemberVoting_twice|done].
      * rewrite lookup_insert_ne by done.
        destruct (decide (id ∈ l)) as [Hl|Hl].
        -- by rewrite decide_True by (by apply list_elem_of_further).
        -- rewrite decide_False; [done|]. by intros [?|?]%elem_of_cons.
    + intros id. rewrite Hv. destruct (decide (id = a)) as [->|Hne].
      * rewrite lookup_insert_eq, (decide_True (P := a ∈ a :: l))
          by apply list_elem_of_here.
        by case_decide.
      * rewrite lookup_insert_ne by done.
        destruct (decide (id ∈ l)) as [Hl|Hl].
        -- by rewrite decide_True by (by apply list_elem_of_further).
        -- rewrite decide_False; [done|]. by intros [?|?]%elem_of_cons.
Qed.

Lemma adjustVotes_inv p q :
  adjustVotes p = Some q →
  (∀ id, id ∈ toAddVote p ++ toRemoveVote p ++ toKeepCreateNonVotingMember p →
         is_Some (members p !! id)) ∧
  (∀ b, bucketList b q = bucketList b p) ∧ addrs q = addrs p ∧
  isChanged q =
    (bool_decide (0 < length (toAddVote p))
     || bool_decide (0 < length (toRemoveVote p))
     || bool_decide (0 < length (toKeepCreateNonVotingMember p))
     || isChanged p) ∧
  (∀ id, members q !! id =
         (λ m, if decide (id ∈ toKeepCreateNonVotingMember p) then setMemberVoting m false
               else if decide (id ∈ toRemoveVote p) then setMemberVoting m false
               else if decide (id ∈ toAddVote p) then setMemberVoting m true
               else m) <$> members p !! id) ∧
  (∀ id, machineVoting q !! id =
         if decide (id ∈ toKeepCreateNonVotingMember p) then Some false
         else if decide (id ∈ toRemoveVote p) then Some false
         else if decide (id ∈ toAddVote p) then Some true
         else machineVoting p !! id).
Proof.
  unfold adjustVotes.
  set (pc := if bool_decide (0 < length (toAddVote p))
                || bool_decide (0 < length (toRemoveVote p))
                || bool_decide (0 < length (toKeepCreateNonVotingMember p))
             then set_isChanged p true else p).
  assert ((∀ b, bucketList b pc = bucketList b p) ∧ members pc = members p ∧
          machineVoting pc = machineVoting p ∧ addrs pc = addrs p ∧
          isChanged pc =
            (bool_decide (0 < length (toAddVote p))
             || bool_decide (0 < length (toRemoveVote p))
             || bool_decide (0 < length (toKeepCreateNonVotingMember p))
             || isChanged p)) as (Hb0 & Hm0 & Hv0 & Ha0 & Hc0).
  { subst pc. destruct (_ || _ || _) eqn:Hor; simpl; repeat split; try done; by intros []. }
  pose proof (Hb0 AddVote) as HA. pose proof (Hb0 RemoveVote) as HR.
  pose proof (Hb0 KeepCreateNonVotingMember) as HC. simpl in HA, HR, HC.
  clearbody pc.
  destruct (setVoting (toAddVote pc) true pc) as [q1|] eqn:Hq1; [|done]. simpl.
  apply setVoting_inv in Hq1 as (Hall1 & Hb1 & Hc1 & Ha1 & Hm1 & Hv1).
  pose proof (Hb1 RemoveVote) as HR1. pose proof (Hb1 KeepCreateNonVotingMember) as HC1.
  simpl in HR1, HC1.
  destruct (setVoting (toRemoveVote q1) false q1) as [q2|] eqn:Hq2; [|done]. simpl.
  apply setVoting_inv in Hq2 as (Hall2 & Hb2 & Hc2 & Ha2 & Hm2 & Hv2).
  pose proof (Hb2 KeepCreateNonVotingMember) as HC2. simpl in HC2.
  intros (Hall3 & Hb3 & Hc3 & Ha3 & Hm3 & Hv3)%setVoting_inv.
  rewrite HC2, HC1, HC in Hall3, Hm3, Hv3. rewrite HR1, HR in Hall2, Hm2, Hv2.
  rewrite HA in Hall1, Hm1, Hv1.
  assert (∀ id, is_Some (members q1 !! id) ↔ is_Some (members p !! id)) as Hd1.
  { intros id. rewrite Hm1, Hm0.
    destruct (decide (id ∈ toAddVote p)); [apply fmap_is_Some|done]. }
  assert (∀ id, is_Some (members q2 !! id) ↔ is_Some (members q1 !! id)) as Hd2.
  { intros id. rewrite Hm2.
    destruct (decide (id ∈ toRemoveVote p)); [apply fmap_is_Some|done]. }
  split; [|split; [|split; [|split; [|split]]]].
  - intros id. rewrite !elem_of_app. intros [Hid|[Hid|Hid]].
    + rewrite <-Hm0. by apply Hall1.
    + apply Hd1. by apply Hall2.
    + apply Hd1, Hd2. by apply Hall3.
  - intros b. by rewrite Hb3, Hb2, Hb1.
  - congruence.
  - congruence.
  - intros id. rewrite Hm3, Hm2, Hm1, Hm0.
    destruct (decide (id ∈ toKeepCreateNonVotingMember p)),
      (decide (id ∈ toRemoveVote p)), (decide (id ∈ toAddVote p)),
      (members p !! id) as [m|]; simpl; by rewrite ?setMemberVoting_twice.
  - intros id. by rewrite Hv3, Hv2, Hv1, Hv0.
Qed.

(** X13: adjustVotes dereferences a nil member, and so panics, exactly when
    some machine id of toAddVote, toRemoveVote or
    toKeepCreateNonVotingMember has no member in the proposal. *)
Theorem adjustVotes_panics_iff p :
  adjustVotes p = None ↔
  ∃ id, id ∈ (toAddVote p ++ toRemoveVote p ++ toKeepCreateNonVotingMember p) ∧
        members p !! id = None.
Proof.
  split.
  - intros Hnone.
    destruct (decide (Forall (λ id, is_Some (members p !! id))
                (toAddVote p ++ toRemoveVote p ++ toKeepCreateNonVotingMember p)))
      as [Hall|Hex].
    + rewrite Forall_forall in Hall.
      destruct (adjustVotes_Some p Hall) as (q & Hq & _). congruence.
    + apply not_Forall_Exists in Hex; [|apply _].
      apply Exists_exists in Hex as (id & Hid & Hno). exists id. split; [done|].
      simpl in Hno. by apply eq_None_not_Some.
  - intros (id & Hid & Hno).
    destruct (adjustVotes p) as [q|] eqn:Hq; [|done].
    apply adjustVotes_inv in Hq as (Hall & _). specialize (Hall id Hid).
    rewrite Hno in Hall. by destruct Hall.
Qed.

(** X14: when adjustVotes completes, the member of each machine id of
    toKeepCreateNonVotingMember and of toRemoveVote is set non-voting, that
    of each other machine id of toAddVote is set voting, the voting map
    records the same for these ids, and no other member or entry changes;
    a change is flagged when one of the three lists is not empty, and a flag
    already set stays. *)
Theorem adjustVotes_sets_votes p q :
  adjustVotes p = Some q →
  (∀ b, bucketList b q = bucketList b p) ∧ addrs q = addrs p ∧
  (isChanged q = true ↔
   toAddVote p ≠ [] ∨ toRemoveVote p ≠ [] ∨ toKeepCreateNonVotingMember p ≠ [] ∨
   isChanged p = true) ∧
  (∀ id, members q !! id =
         (λ m, if decide (id ∈ toKeepCreateNonVotingMember p) then setMemberVoting m false
               else if decide (id ∈ toRemoveVote p) then setMemberVoting m false
               else if decide (id ∈ toAddVote p) then setMemberVoting m true
               else m) <$> members p !! id) ∧
  (∀ id, machineVoting q !! id =
         if decide (id ∈ toKeepCreateNonVotingMember p) then Some false
         else if decide (id ∈ toRemoveVote p) then Some false
         else if decide (id ∈ toAddVote p) then Some true
         else machineVoting p !! id).
Proof.
  intros (_ & Hb & Ha & Hc & Hm & Hv)%adjustVotes_inv.
  split; [done|]. split; [done|]. split; [|done].
  rewrite Hc, !orb_true_iff, !bool_decide_eq_true.
  assert (∀ l : list string, 0 < length l ↔ l ≠ []) as Hlen.
  { intros [|x l]; simpl; split; try done; lia. }
  rewrite !Hlen. tauto.
Qed.

Lemma adjustVotes_sets_votes_witness :
  adjustVotes leavingProposal = Some leavingAdjusted ∧
  addrs leavingAdjusted = addrs leavingProposal ∧
  (isChanged leavingAdjusted = true ↔
   toAddVote leavingProposal ≠ [] ∨ toRemoveVote leavingProposal ≠ [] ∨
   toKeepCreateNonVotingMember leavingProposal ≠ [] ∨
   isChanged leavingProposal = true).
Proof.
  assert (adjustVotes leavingProposal = Some leavingAdjusted) as H1
    by (vm_compute; reflexivity).
  split; [exact H1|].
  pose proof (adjustVotes_sets_votes leavingProposal leavingAdjusted H1)
    as (_ & H2 & H3 & _).
  exact (conj H2 H3).
Defined.

(** ** More on the address update *)

Lemma setAddress_same m : setAddress m (Address m) = m.
Proof. by destruct m. Qed.

Lemma updateAddresses_result p :
  let q := updateAddresses p in
  addrs q = addrs p ∧
  ∀ id, members q !! id =
        (λ m, match addrs p !! id with
              | Some a => if decide (a = "") then m else setAddress m a
              | None => m
              end) <$> members p !! id.
Proof.
  unfold updateAddresses. cbv zeta.
  apply (map_fold_weak_ind (λ (q : peerGroupChanges) (am : gmap string string),
    addrs q = addrs p ∧
    ∀ id, members q !! id =
          (λ m, match am !! id with
                | Some a => if decide (a = "") then m else setAddress m a
                | None => m
                end) <$> members p !! id)).
  - split; [done|]. intros id. rewrite lookup_empty. by destruct (members p !! id).
  - intros i addr am q Hi [Haddrs Hmem].
    assert (members q !! i = members p !! i) as Hqi.
    { rewrite Hmem, Hi. by destruct (members p !! i). }
    destruct (decide (addr = "")) as [->|Hne].
    + split; [done|]. intros id. rewrite Hmem.
      destruct (decide (i = id)) as [->|Hneq].
      * rewrite lookup_insert_eq, Hi. done.
      * by rewrite lookup_insert_ne.
    + destruct (members q !! i) as [m|] eqn:Hm.
      * destruct (decide (addr ≠ Address m)) as [Hdiff|Hsame]; simpl.
        -- split; [done|]. intros id.
           destruct (decide (i = id)) as [->|Hneq].
           ++ rewrite !lookup_insert_eq, <-Hqi. simpl. by rewrite decide_False.
           ++ rewrite !lookup_insert_ne by done. apply Hmem.
        -- split; [done|]. intros id. rewrite Hmem.
           destruct (decide (i = id)) as [->|Hneq].
           ++ rewrite lookup_insert_eq, Hi, <-Hqi. simpl.
              rewrite decide_False by done.
              assert (addr = Address m) as -> by (by destruct (decide (addr = Address m))).
              by rewrite setAddress_same.
           ++ by rewrite lookup_insert_ne.
      * split; [done|]. intros id. rewrite Hmem.
        destruct (decide (i = id)) as [->|Hneq].
        -- rewrite lookup_insert_eq, Hi, <-Hqi. done.
        -- by rewrite lookup_insert_ne.
Qed.

(** X15: updateAddresses gives each member the address held for its machine
    id when that address is not empty, and leaves the member as it is when
    the address is empty or none is held; it changes nothing but addresses,
    ignores the addresses of machine ids without a member, and flags a
    change exactly when some member's address was different (a flag already
    set stays). *)
Theorem updateAddresses_sets_held_address p :
  let q := updateAddresses p in
  addrs q = addrs p ∧ machineVoting q = machineVoting p ∧
  (∀ b, bucketList b q = bucketList b p) ∧
  (∀ id, members p !! id = None → members q !! id = None) ∧
  (∀ id m, members p !! id = Some m →
     ∃ m', members q !! id = Some m' ∧
       Id m' = Id m ∧ Tags m' = Tags m ∧ Votes m' = Votes m ∧ Priority m' = Priority m ∧
       Address m' = match addrs p !! id with
                    | Some a => if decide (a = "") then Address m else a
                    | None => Address m
                    end) ∧
  (isChanged q = true ↔
   isChanged p = true ∨
   ∃ id addr m, addrs p !! id = Some addr ∧ addr ≠ "" ∧
                members p !! id = Some m ∧ Address m ≠ addr).
Proof.
  intros q. subst q.
  destruct (updateAddresses_result p) as [Ha Hm].
  destruct (updateAddresses_frame p) as (Hv & Hb & _).
  split; [done|]. split; [done|]. split; [done|]. split; [|split].
  - intros id Hid. by rewrite Hm, Hid.
  - intros id m Hid. rewrite Hm, Hid. simpl. eexists. split; [done|].
    destruct (addrs p !! id) as [a|]; [|done]. by case_decide.
  - apply updateAddresses_changed.
Qed.

(** ** The voting map and the members *)

Lemma isVotingMember_setAddress m a : isVotingMember (setAddress m a) = isVotingMember m.
Proof. done. Qed.

Lemma voting_matches_members p q :
  (∀ id, members p !! id = None → machineVoting p !! id = None) →
  adjustVotes (getMachinesVoting p) = Some q →
  ∀ id, machineVoting (updateAddresses q) !! id =
        isVotingMember <$> members (updateAddresses q) !! id.
Proof.
  intros Hstale (Hall & _ & _ & _ & Hm & Hv)%adjustVotes_inv id.
  destruct (updateAddresses_frame q) as (-> & _).
  destruct (updateAddresses_result q) as [_ ->].
  rewrite Hv, Hm, getMachinesVoting_lookup.
  specialize (Hall id). rewrite !elem_of_app in Hall.
  change (members (getMachinesVoting p)) with (members p) in *.
  change (toKeepCreateNonVotingMember (getMachinesVoting p))
    with (toKeepCreateNonVotingMember p) in *.
  change (toRemoveVote (getMachinesVoting p)) with (toRemoveVote p) in *.
  change (toAddVote (getMachinesVoting p)) with (toAddVote p) in *.
  destruct (members p !! id) as [m|] eqn:Hid; simpl.
  - assert (∀ m', isVotingMember
              match addrs q !! id with
              | Some a => if decide (a = "") then m' else setAddress m' a
              | None => m'
              end = isVotingMember m') as Haddr.
    { intros m'. destruct (addrs q !! id) as [a|]; [|done]. by destruct (decide (a = "")). }
    rewrite Haddr.
    destruct (decide (id ∈ toKeepCreateNonVotingMember p)),
      (decide (id ∈ toRemoveVote p)), (decide (id ∈ toAddVote p));
      by rewrite ?isVotingMember_setMemberVoting.
  - assert (∀ P : Prop, P → is_Some (@None Member) → False) as Hno
      by (intros P _ [? ?]; done).
    destruct (decide (id ∈ toKeepCreateNonVotingMember p));
      [exfalso; eapply Hno; [|apply Hall]; [exact I|auto]|].
    destruct (decide (id ∈ toRemoveVote p));
      [exfalso; eapply Hno; [|apply Hall]; [exact I|auto]|].
    destruct (decide (id ∈ toAddVote p));
      [exfalso; eapply Hno; [|apply Hall]; [exact I|auto]|].
    by apply Hstale.
Qed.
